(** * Julia-set fragment shaders of gl-react-julia, embedded over the reals

    The three components [JuliaFractal], [JuliaImageFractal] and
    [JuliaFieldFractal] each hand a GLSL fragment shader to gl-react.  The
    shader text is embedded here function by function.  GLSL [float] is read
    as a real number and a decimal literal as the rational it spells,
    except [3.14159265358979], which stands for pi and in the shader's
    floats is the float nearest to it: that one is read as [PI].  GLSL
    [int] is read as [Z].  Built-ins whose result GLSL leaves undefined on some inputs are
    total here and the chosen value is stated where they are defined. *)

From Stdlib Require Import Reals Lra Lia ZArith List Bool.
Import ListNotations.

Open Scope R_scope.

(** ** Vectors *)

Record vec2 : Type := V2 { v2x : R; v2y : R }.
Record vec3 : Type := V3 { v3x : R; v3y : R; v3z : R }.
Record vec4 : Type := V4 { v4x : R; v4y : R; v4z : R; v4w : R }.

Definition add2 (a b : vec2) : vec2 := V2 (v2x a + v2x b) (v2y a + v2y b).
Definition sub2 (a b : vec2) : vec2 := V2 (v2x a - v2x b) (v2y a - v2y b).
Definition mul2 (a b : vec2) : vec2 := V2 (v2x a * v2x b) (v2y a * v2y b).
Definition div2 (a b : vec2) : vec2 := V2 (v2x a / v2x b) (v2y a / v2y b).
Definition scale2 (k : R) (a : vec2) : vec2 := V2 (k * v2x a) (k * v2y a).

Definition add3 (a b : vec3) : vec3 :=
  V3 (v3x a + v3x b) (v3y a + v3y b) (v3z a + v3z b).
Definition scale3 (k : R) (a : vec3) : vec3 :=
  V3 (k * v3x a) (k * v3y a) (k * v3z a).

Definition mul4 (a b : vec4) : vec4 :=
  V4 (v4x a * v4x b) (v4y a * v4y b) (v4z a * v4z b) (v4w a * v4w b).
Definition scale4 (k : R) (a : vec4) : vec4 :=
  V4 (k * v4x a) (k * v4y a) (k * v4z a) (k * v4w a).

(** Swizzles [.rgb] (read) and [.rgb +=] (write, alpha untouched). *)
Definition rgb_of (c : vec4) : vec3 := V3 (v4x c) (v4y c) (v4z c).
Definition set_rgb (c : vec4) (v : vec3) : vec4 :=
  V4 (v3x v) (v3y v) (v3z v) (v4w c).
Definition vec4_of (v : vec3) (a : R) : vec4 := V4 (v3x v) (v3y v) (v3z v) a.

(** ** GLSL built-ins *)

Module GLSL.

Definition floor (x : R) : R := IZR (Int_part x).
Definition fract (x : R) : R := x - floor x.
(** [mod(x, y) = x - y * floor(x / y)] *)
Definition mod_ (x y : R) : R := x - y * floor (x / y).
Definition mix (x y a : R) : R := x * (1 - a) + y * a.
Definition clamp (x lo hi : R) : R := Rmin (Rmax x lo) hi.
Definition dot (a b : vec2) : R := v2x a * v2x b + v2y a * v2y b.
Definition length (a : vec2) : R := sqrt (dot a a).

Definition mix3 (a b : vec3) (t : R) : vec3 :=
  V3 (mix (v3x a) (v3x b) t) (mix (v3y a) (v3y b) t) (mix (v3z a) (v3z b) t).

(** [pow(x, y)]: GLSL leaves it undefined for [x < 0] and for [x = 0],
    [y <= 0]; here those cases give [0], as does [pow(0, y)] with
    [0 < y], which GLSL defines. *)
Definition pow (x y : R) : R :=
  if Rlt_dec 0 x then Rpower x y else 0.

(** [log(x)]: the natural logarithm; GLSL leaves it undefined for
    [x <= 0], where [ln] is [0]. *)
Definition log (x : R) : R := ln x.

(** The two-argument built-in [atan(y, x)]: the angle of the vector
    [(x, y)], in [(-PI, PI]]; GLSL leaves [atan(0, 0)] undefined, here it
    is [0]. *)
Definition atan (y x : R) : R :=
  if Rlt_dec 0 x then Ratan.atan (y / x)
  else if Rlt_dec x 0 then
    (if Rle_dec 0 y then Ratan.atan (y / x) + PI else Ratan.atan (y / x) - PI)
  else if Rlt_dec 0 y then PI / 2
  else if Rlt_dec y 0 then - (PI / 2)
  else 0.

End GLSL.

(** ** Functions shared by the three shaders *)

(** The literal [3.14159265358979] of [atan2]: [PI] written to more
    digits than a shader float holds, so that the float it denotes is
    the float nearest to [PI]. *)
Definition PI_literal : R := PI.

(** [float atan2(float y, float x)] *)
Definition atan2 (y x : R) : R :=
  let s := if Rgt_dec (Rabs x) (Rabs y) then 1 else 0 in
  GLSL.mix (PI_literal / 2 - GLSL.atan x y) (GLSL.atan y x) s.

(** [vec3 hsv2rgb(vec3 c)] *)
Definition hsv2rgb (c : vec3) : vec3 :=
  let K := V4 1 (2 / 3) (1 / 3) 3 in
  let p := V3 (Rabs (GLSL.fract (v3x c + v4x K) * 6 - v4w K))
              (Rabs (GLSL.fract (v3x c + v4y K) * 6 - v4w K))
              (Rabs (GLSL.fract (v3x c + v4z K) * 6 - v4w K)) in
  scale3 (v3z c)
    (V3 (GLSL.mix (v4x K) (GLSL.clamp (v3x p - v4x K) 0 1) (v3y c))
        (GLSL.mix (v4x K) (GLSL.clamp (v3y p - v4x K) 0 1) (v3y c))
        (GLSL.mix (v4x K) (GLSL.clamp (v3z p - v4x K) 0 1) (v3y c))).

(** [vec3 rgb2hsv(vec3 c)] (field shader only) *)
Definition rgb2hsv (c : vec3) : vec3 :=
  let K := V4 0 (-1 / 3) (2 / 3) (-1) in
  let p := if Rlt_dec (v3y c) (v3z c)
           then V4 (v3z c) (v3y c) (v4w K) (v4z K)
           else V4 (v3y c) (v3z c) (v4x K) (v4y K) in
  let q := if Rlt_dec (v3x c) (v4x p)
           then V4 (v4x p) (v4y p) (v4w p) (v3x c)
           else V4 (v3x c) (v4y p) (v4z p) (v4x p) in
  let d := v4x q - Rmin (v4w q) (v4y q) in
  let e := 1 / 10000000000 in
  V3 (Rabs (v4z q + (v4w q - v4y q) / (6 * d + e))) (d / (v4x q + e)) (v4x q).

(** [const fullExtent = [5, 4]], spliced into the shader with [toFixed(8)]. *)
Definition fullExtent : vec2 := V2 5 4.

(** First three lines of every [main]: the point of the plane under the
    pixel [uv]. *)
Definition zRange (zoom : R) : vec2 := scale2 zoom fullExtent.
Definition leftBottom (center : vec2) (zoom : R) : vec2 :=
  sub2 center (scale2 (5 / 10) (zRange zoom)).
Definition start_z (center : vec2) (zoom : R) (uv : vec2) : vec2 :=
  add2 (leftBottom center zoom) (mul2 uv (zRange zoom)).

(** The two branches of [z = z^p + c]. *)
Definition square_path (c z : vec2) : vec2 :=
  let nextR := GLSL.dot z (mul2 z (V2 1 (-1))) in
  add2 c (V2 nextR (2 * v2x z * v2y z)).

Definition polar_path (p : R) (c z : vec2) : vec2 :=
  let scale := GLSL.pow (GLSL.dot z z) (5 / 10 * p) in
  let theta := p * atan2 (v2y z) (v2x z) in
  add2 c (V2 (scale * cos theta) (scale * sin theta)).

Definition power_map (p : R) (c z : vec2) : vec2 :=
  if Req_dec_T p 2 then square_path c z else polar_path p c z.

(** [for (int i = 0; i < n; ++i) { body }]: [body] returns the new state
    and whether it executed [break].  The result carries the number of
    times the body ran. *)
Fixpoint for_loop {S : Type} (body : Z -> S -> S * bool)
                  (n : nat) (i : Z) (s : S) : S * nat :=
  match n with
  | O => (s, O)
  | Datatypes.S n' =>
      let (s', brk) := body i s in
      if brk then (s', 1%nat)
      else let (s'', k) := for_loop body n' (i + 1)%Z s' in
           (s'', Datatypes.S k)
  end.

(** Evaluation that records every argument handed to [log]. *)
Definition Logged (A : Type) : Type := (A * list R)%type.
Definition ret {A} (a : A) : Logged A := (a, []).
Definition bind {A B} (m : Logged A) (k : A -> Logged B) : Logged B :=
  let (a, l1) := m in let (b, l2) := k a in (b, l1 ++ l2).
Definition log_ (x : R) : Logged R := (GLSL.log x, [x]).

Notation "x <- m ;; k" := (bind m (fun x => k))
  (at level 61, m at next level, right associativity).

(** [fiter = log(dot(z,z));
     fiter = (fiter >= 0.0) ? (float(iter) - log(fiter) / log(2.0))
                            : (fiter + float(iter));] *)
Definition smooth_iter (z : vec2) (iter : Z) : Logged R :=
  fiter <- log_ (GLSL.dot z z) ;;
  if Rge_dec fiter 0
  then (l1 <- log_ fiter ;; l2 <- log_ 2 ;; ret (IZR iter - l1 / l2))
  else ret (fiter + IZR iter).

Definition black : vec4 := V4 0 0 0 1.

(** ** [juliaFractal]: the pure-colour shader (julia-fractal.tsx) *)

Record Uniforms : Type := mkUniforms
  { u_center : vec2; u_zoom : R; u_c : vec2; u_p : R }.

Record State : Type := mkState { st_z : vec2; st_lastZ : vec2; st_iter : Z }.

Definition juliaFractal_body (u : Uniforms) (i : Z) (s : State) : State * bool :=
  let z := power_map (u_p u) (u_c u) (st_z s) in
  if Rgt_dec (GLSL.length z) 4
  then (mkState z (st_lastZ s) i, true)
  else (mkState z z (st_iter s), false).

Definition juliaFractal_loop (u : Uniforms) (uv : vec2) : State * nat :=
  let z := start_z (u_center u) (u_zoom u) uv in
  for_loop (juliaFractal_body u) 64 0%Z (mkState z z 65%Z).

Definition juliaFractal_main (u : Uniforms) (uv : vec2) : Logged vec4 :=
  let s := fst (juliaFractal_loop u uv) in
  if (st_iter s =? 65)%Z then ret black
  else
    fiter <- smooth_iter (st_z s) (st_iter s) ;;
    let striping := if Rge_dec (GLSL.mod_ fiter 1) (5 / 10) then 1 else 8 / 10 in
    ret (scale4 striping
           (vec4_of (hsv2rgb (V3 (fiter / 64) (8 / 10) (8 / 10))) 1)).

Record JuliaFractalProps : Type := mkJuliaFractalProps
  { jf_center : vec2; jf_zoom : R; jf_c : vec2; jf_p : R }.

(** [uniforms={{ center, zoom: 2**(-zoom), c, p }}] *)
Definition JuliaFractal (props : JuliaFractalProps) (uv : vec2) : Logged vec4 :=
  juliaFractal_main
    (mkUniforms (jf_center props) (Rpower 2 (- jf_zoom props))
                (jf_c props) (jf_p props)) uv.

(** ** [imageFractal]: the image-sampling shader (julia-image-fractal.tsx) *)

(** [texture2D(image, .)]: the bound texture, as a function of the
    sampling coordinate. *)
Definition sampler2D : Type := vec2 -> vec4.

Definition uvNow_of (z : vec2) : vec2 :=
  add2 (mul2 z (V2 (2 / 10) (25 / 100))) (V2 (5 / 10) (5 / 10)).

(** [mag2i = .35 * dot(z, z); mag2i = clamp(1.0 / max(1.0, mag2i), 0.0, 1.0)] *)
Definition mag2i_of (z : vec2) : R :=
  let mag2i := 35 / 100 * GLSL.dot z z in
  GLSL.clamp (1 / Rmax 1 mag2i) 0 1.

(** [gl_FragColor.rgb += .01*mix(gl_FragColor.rgb, rgb, mag2i)] *)
Definition accumulate (color : vec4) (rgb : vec3) (mag2i : R) : vec4 :=
  set_rgb color
    (add3 (rgb_of color) (scale3 (1 / 100) (GLSL.mix3 (rgb_of color) rgb mag2i))).

Record ImgState : Type := mkImgState
  { is_color : vec4; is_z : vec2; is_lastZ : vec2; is_iter : Z }.

Definition imageFractal_body (u : Uniforms) (image : sampler2D)
                             (i : Z) (s : ImgState) : ImgState * bool :=
  let uvNow := uvNow_of (is_z s) in
  let mag2i := mag2i_of (is_z s) in
  let color := accumulate (is_color s) (rgb_of (image uvNow)) mag2i in
  let z := power_map (u_p u) (u_c u) (is_z s) in
  let magZ := GLSL.dot z z in
  if Rgt_dec magZ 10
  then (mkImgState color z (is_lastZ s) i, true)
  else (mkImgState color z z (is_iter s), false).

Definition imageFractal_loop (u : Uniforms) (image : sampler2D) (uv : vec2)
  : ImgState * nat :=
  let z := start_z (u_center u) (u_zoom u) uv in
  for_loop (imageFractal_body u image) 64 0%Z (mkImgState black z z 65%Z).

Definition imageFractal_main (u : Uniforms) (image : sampler2D) (uv : vec2)
  : Logged vec4 :=
  let s := fst (imageFractal_loop u image uv) in
  if (is_iter s =? 65)%Z then ret black
  else
    fiter <- smooth_iter (is_z s) (is_iter s) ;;
    let scale := 65 / fiter in
    ret (mul4 (is_color s) (V4 scale scale scale 1)).

Record JuliaImageFractalProps : Type := mkJuliaImageFractalProps
  { ji_center : vec2; ji_zoom : R; ji_c : vec2; ji_p : R; ji_image : sampler2D }.

Definition JuliaImageFractal (props : JuliaImageFractalProps) (uv : vec2)
  : Logged vec4 :=
  imageFractal_main
    (mkUniforms (ji_center props) (Rpower 2 (- ji_zoom props))
                (ji_c props) (ji_p props)) (ji_image props) uv.

(** ** [JuliaFieldFractal]: the field shader (julia-field-fractal.tsx) *)

Record FieldUniforms : Type := mkFieldUniforms
  { fu_center : vec2; fu_zoom : R; fu_c : vec2;
    fu_p0 : R; fu_q : R; fu_r : R }.

(** What the spliced [fieldExpr] can read at its place in the loop body. *)
Record Env : Type := mkEnv
  { e_uv : vec2; e_center : vec2; e_zoom : R; e_c : vec2;
    e_p0 : R; e_q : R; e_r : R;
    e_z : vec2; e_z0 : vec2; e_lastZ : vec2;
    e_rgb : vec3; e_hsv : vec3; e_i : Z; e_mag2i : R; e_p : R;
    e_gl_FragColor : vec4; e_iter : Z; e_uvNow : vec2 }.

(** A [fieldExpr] is a GLSL expression; it is read as the value it has in
    an environment. *)
Definition FieldExpr : Type := Env -> R.

(** [maxIterations || 64]: the prop may be missing, and [0] is falsy.  The
    prop is read as an integer, which it has to be for the spliced
    [int iter = ...;] to be GLSL. *)
Definition or_default (maxIterations : option Z) (d : Z) : Z :=
  match maxIterations with
  | Some n => if (n =? 0)%Z then d else n
  | None => d
  end.

(** The three places where [maxIterations] is spliced into the shader. *)
Definition iter_init (maxIterations : option Z) : Z :=
  (or_default maxIterations 64 + 1)%Z.
Definition loop_bound (maxIterations : option Z) : Z :=
  or_default maxIterations 64.
Definition interior_test (maxIterations : option Z) : Z :=
  or_default maxIterations 64.

Record FieldState : Type := mkFieldState
  { fs_color : vec4; fs_z : vec2; fs_lastZ : vec2; fs_iter : Z }.

Definition fieldFractal_body (fieldExpr : option FieldExpr)
    (u : FieldUniforms) (image : sampler2D) (uv z0 : vec2)
    (i : Z) (s : FieldState) : FieldState * bool :=
  let z := fs_z s in
  let uvNow := uvNow_of z in
  let rgb := rgb_of (image uvNow) in
  let mag2i := mag2i_of z in
  let color := accumulate (fs_color s) rgb mag2i in
  let p := fu_p0 u in
  let p :=
    match fieldExpr with
    | Some f =>
        let hsv := rgb2hsv rgb in
        fu_q u + (fu_r u - fu_q u) *
          f (mkEnv uv (fu_center u) (fu_zoom u) (fu_c u)
                   (fu_p0 u) (fu_q u) (fu_r u)
                   z z0 (fs_lastZ s) rgb hsv i mag2i p color (fs_iter s) uvNow)
    | None => p
    end in
  let lastZ := z in
  let z := power_map p (fu_c u) z in
  let magZ := GLSL.dot z z in
  if Rgt_dec magZ 10
  then (mkFieldState color z lastZ i, true)
  else (mkFieldState color z lastZ (fs_iter s), false).

Definition fieldFractal_loop (fieldExpr : option FieldExpr)
    (maxIterations : option Z)
    (u : FieldUniforms) (image : sampler2D) (uv : vec2) : FieldState * nat :=
  let z := start_z (fu_center u) (fu_zoom u) uv in
  for_loop (fieldFractal_body fieldExpr u image uv z)
           (Z.to_nat (loop_bound maxIterations)) 0%Z
           (mkFieldState black z z (iter_init maxIterations)).

Definition fieldFractal_main (fieldExpr : option FieldExpr)
    (maxIterations : option Z)
    (u : FieldUniforms) (image : sampler2D) (uv : vec2) : Logged vec4 :=
  let s := fst (fieldFractal_loop fieldExpr maxIterations u image uv) in
  if (fs_iter s =? interior_test maxIterations)%Z then ret black
  else
    fiter <- smooth_iter (fs_z s) (fs_iter s) ;;
    let scale := if (fs_iter s =? 0)%Z then 100
                 else 1 / (1 / 100 * IZR (fs_iter s)) in
    ret (mul4 (fs_color s) (V4 scale scale scale 1)).

Record JuliaFieldFractalProps : Type := mkJuliaFieldFractalProps
  { ff_center : vec2; ff_zoom : R; ff_c : vec2;
    ff_p : R; ff_q : R; ff_r : R; ff_image : sampler2D;
    ff_fieldExpr : option FieldExpr; ff_maxIterations : option Z }.

(** [uniforms={{ center, zoom: 2**(-zoom), c, p0: p, q, r, image }}] *)
Definition JuliaFieldFractal (props : JuliaFieldFractalProps) (uv : vec2)
  : Logged vec4 :=
  fieldFractal_main (ff_fieldExpr props) (ff_maxIterations props)
    (mkFieldUniforms (ff_center props) (Rpower 2 (- ff_zoom props))
                     (ff_c props) (ff_p props) (ff_q props) (ff_r props))
    (ff_image props) uv.

(** ** Named inputs used in the statements below *)

Definition origin : vec2 := V2 0 0.
(** The pixel in the middle of the surface. *)
Definition mid_uv : vec2 := V2 (1 / 2) (1 / 2).
(** A texture that is opaque white everywhere. *)
Definition white : sampler2D := fun _ => V4 1 1 1 1.

(** The accumulation step as the specification words it:
    [accumColor += 0.01 * (rgb - accumColor) * w]. *)
Definition spec_accumulate (color : vec4) (rgb : vec3) (w : R) : vec4 :=
  V4 (v4x color + 1 / 100 * (v3x rgb - v4x color) * w)
     (v4y color + 1 / 100 * (v3y rgb - v4y color) * w)
     (v4z color + 1 / 100 * (v3z rgb - v4z color) * w)
     (v4w color).

(** The complex square [z * z]. *)
Definition csquare (z : vec2) : vec2 :=
  V2 (v2x z * v2x z - v2y z * v2y z) (2 * v2x z * v2y z).

(** Colour gathered at the origin after [k] iterations: [k] hundredths of
    the texel under [uvNow_of origin]. *)
Definition origin_color (image : sampler2D) (k : Z) : vec4 :=
  let rgb := rgb_of (image (uvNow_of origin)) in
  V4 (IZR k / 100 * v3x rgb) (IZR k / 100 * v3y rgb) (IZR k / 100 * v3z rgb) 1.

(** ** Angles *)

(** Length of the vector [(x, y)]. *)
Definition radius (x y : R) : R := sqrt (x * x + y * y).

(** The full turn by which [atan2] overshoots in the third quadrant. *)
Definition third_quadrant_turn (x y : R) : R :=
  if Rlt_dec x 0 then (if Rlt_dec y 0 then 2 * PI else 0) else 0.

(** ** Definitions used by the further properties *)

(** One channel of [hsv2rgb]: [v * mix(1, clamp(|fract(h + k) * 6 - 3| - 1, 0, 1), s)]. *)
Definition hsv_channel (k h s v : R) : R :=
  v * GLSL.mix 1 (GLSL.clamp (Rabs (GLSL.fract (h + k) * 6 - 3) - 1) 0 1) s.

(** The texture has all its colour channels in [[0, 1]]. *)
Definition unit_texture (image : sampler2D) : Prop :=
  forall p, 0 <= v4x (image p) <= 1 /\ 0 <= v4y (image p) <= 1 /\
            0 <= v4z (image p) <= 1.

(** The three colour channels of [c] lie in [[lo, hi]]. *)
Definition rgb_within (lo hi : R) (c : vec4) : Prop :=
  lo <= v4x c <= hi /\ lo <= v4y c <= hi /\ lo <= v4z c <= hi.

(** What the pure-colour shader does after its loop, as a function of the
    last iterate and of [iter]. *)
Definition juliaFractal_color (z : vec2) (iter : Z) : Logged vec4 :=
  if (iter =? 65)%Z then ret black
  else
    fiter <- smooth_iter z iter ;;
    let striping := if Rge_dec (GLSL.mod_ fiter 1) (5 / 10) then 1 else 8 / 10 in
    ret (scale4 striping
           (vec4_of (hsv2rgb (V3 (fiter / 64) (8 / 10) (8 / 10))) 1)).

(** The point opposite to [v]. *)
Definition neg2 (v : vec2) : vec2 := V2 (- v2x v) (- v2y v).

(** * Properties *)

(** ** The loop *)

Section ForLoop.
Context {S : Type} (body : Z -> S -> S * bool).

(** The body runs at most [n] times. *)
Lemma for_loop_trips_le (n : nat) :
  forall i s, (snd (for_loop body n i s) <= n)%nat.
Proof.
  induction n as [|n IH]; intros i s; simpl; [lia|].
  destruct (body i s) as [s' brk]; destruct brk; simpl; [lia|].
  specialize (IH (i + 1)%Z s').
  destruct (for_loop body n (i + 1)%Z s') as [s'' k]; simpl in *; lia.
Qed.

(** A loop whose body never breaks on the states it meets runs all of
    its [n] iterations and ends in a state of the invariant. *)
Lemma for_loop_no_break (I : Z -> S -> Prop) :
  (forall i s, I i s -> snd (body i s) = false /\ I (i + 1)%Z (fst (body i s))) ->
  forall n i s, I i s ->
    snd (for_loop body n i s) = n /\
    I (i + Z.of_nat n)%Z (fst (for_loop body n i s)).
Proof.
  intros Hstep n; induction n as [|n IH]; intros i s Hi.
  - simpl; split; [reflexivity|]. now rewrite Z.add_0_r.
  - cbn [for_loop]. destruct (Hstep i s Hi) as [Hb Hn].
    destruct (body i s) as [s' brk]; simpl in Hb, Hn; subst brk.
    destruct (IH (i + 1)%Z s' Hn) as [Hk Hinv].
    destruct (for_loop body n (i + 1)%Z s') as [s'' k]; simpl in *.
    split; [now rewrite Hk|].
    replace (i + Z.pos (Pos.of_succ_nat n))%Z with (i + 1 + Z.of_nat n)%Z by lia.
    exact Hinv.
Qed.

(** Either no iteration broke and [P] still holds, or the loop was left
    by the [break] of some iteration [j], which established [Q j]. *)
Lemma for_loop_break (P : S -> Prop) (Q : Z -> S -> Prop) :
  (forall i s, P s -> snd (body i s) = false -> P (fst (body i s))) ->
  (forall i s, P s -> snd (body i s) = true -> Q i (fst (body i s))) ->
  forall n i s, P s ->
    P (fst (for_loop body n i s)) \/
    exists j, (i <= j < i + Z.of_nat n)%Z /\ Q j (fst (for_loop body n i s)).
Proof.
  intros Hc Hb n; induction n as [|n IH]; intros i s HP.
  - now left.
  - cbn [for_loop]. specialize (Hc i s HP). specialize (Hb i s HP).
    destruct (body i s) as [s' brk]; simpl in Hc, Hb. destruct brk.
    + right. exists i. split; [lia|]. now apply Hb.
    + destruct (IH (i + 1)%Z s' (Hc eq_refl)) as [H|[j [Hj HQ]]];
        destruct (for_loop body n (i + 1)%Z s') as [s'' k]; simpl in *.
      * now left.
      * right. exists j. split; [lia|exact HQ].
Qed.

(** An invariant kept by every iteration, breaking or not. *)
Lemma for_loop_always (P : S -> Prop) :
  (forall i s, P s -> P (fst (body i s))) ->
  forall n i s, P s -> P (fst (for_loop body n i s)).
Proof.
  intros Hs n; induction n as [|n IH]; intros i s HP; [exact HP|].
  cbn [for_loop]. specialize (Hs i s HP).
  destruct (body i s) as [s' brk]; simpl in Hs. destruct brk; [exact Hs|].
  specialize (IH (i + 1)%Z s' Hs).
  now destruct (for_loop body n (i + 1)%Z s') as [s'' k].
Qed.
End ForLoop.

(** Bodies that agree everywhere give the same loop. *)
Lemma for_loop_ext {S : Type} (b1 b2 : Z -> S -> S * bool) :
  (forall i s, b1 i s = b2 i s) ->
  forall n i s, for_loop b1 n i s = for_loop b2 n i s.
Proof.
  intros Hb n; induction n as [|n IH]; intros i s; [reflexivity|].
  cbn [for_loop]. rewrite Hb. destruct (b2 i s) as [s' brk].
  destruct brk; [reflexivity|]. now rewrite IH.
Qed.

(** ** Small facts about the built-ins *)

Lemma eq_vec2 (a b c d : R) : a = c -> b = d -> V2 a b = V2 c d.
Proof. now intros -> ->. Qed.

Lemma eq_vec4 (a b c d a' b' c' d' : R) :
  a = a' -> b = b' -> c = c' -> d = d' -> V4 a b c d = V4 a' b' c' d'.
Proof. now intros -> -> -> ->. Qed.

Lemma ln_nonpos (x : R) : x <= 0 -> ln x = 0.
Proof.
  intros Hx. unfold ln. destruct (Rlt_dec 0 x) as [H|H]; [exfalso; lra|reflexivity].
Qed.

Lemma dot_self_nonneg (z : vec2) : 0 <= GLSL.dot z z.
Proof. unfold GLSL.dot. nra. Qed.

Lemma length_gt_4 (z : vec2) : GLSL.length z > 4 -> 16 < GLSL.dot z z.
Proof.
  unfold GLSL.length. intros H.
  pose proof (dot_self_nonneg z) as Hd.
  pose proof (sqrt_sqrt _ Hd) as Hs. nra.
Qed.

Lemma power_map_2 (c z : vec2) : power_map 2 c z = square_path c z.
Proof.
  unfold power_map. destruct (Req_dec_T 2 2) as [_|H]; [reflexivity|].
  now destruct H.
Qed.

Lemma square_path_csquare (c z : vec2) : square_path c z = add2 c (csquare z).
Proof.
  unfold square_path, csquare, add2, mul2, GLSL.dot; simpl.
  apply eq_vec2; ring.
Qed.

Lemma square_path_origin : square_path origin origin = origin.
Proof. unfold square_path, origin, add2, mul2, GLSL.dot; simpl. apply eq_vec2; ring. Qed.

Lemma start_z_mid (center : vec2) (zoom : R) :
  start_z center zoom mid_uv = center.
Proof.
  destruct center as [cx cy].
  unfold start_z, leftBottom, zRange, fullExtent, mid_uv, add2, sub2, mul2, scale2; simpl.
  apply eq_vec2; field.
Qed.

Lemma mag2i_origin : mag2i_of origin = 1.
Proof.
  unfold mag2i_of, GLSL.clamp, GLSL.dot, origin; simpl.
  replace (35 / 100 * (0 * 0 + 0 * 0)) with 0 by field.
  rewrite (Rmax_left 1 0) by lra.
  replace (1 / 1) with 1 by field.
  rewrite (Rmax_left 1 0) by lra. apply Rmin_left; lra.
Qed.

Lemma dot_origin : GLSL.dot origin origin = 0.
Proof. unfold GLSL.dot, origin; simpl; ring. Qed.

Lemma length_origin : GLSL.length origin = 0.
Proof. unfold GLSL.length. rewrite dot_origin. apply sqrt_0. Qed.

(** The accumulation leaves alpha alone. *)
Lemma accumulate_alpha (color : vec4) (rgb : vec3) (w : R) :
  v4w (accumulate color rgb w) = v4w color.
Proof. reflexivity. Qed.

(** With full weight the accumulation adds a hundredth of the sample. *)
Lemma accumulate_full (k : R) (rgb : vec3) (a : R) :
  accumulate (V4 (k * v3x rgb) (k * v3y rgb) (k * v3z rgb) a) rgb 1
  = V4 ((k + 1 / 100) * v3x rgb) ((k + 1 / 100) * v3y rgb)
       ((k + 1 / 100) * v3z rgb) a.
Proof.
  unfold accumulate, set_rgb, add3, scale3, rgb_of, GLSL.mix3, GLSL.mix; simpl.
  apply eq_vec4; try reflexivity; field.
Qed.

(** ** The orbit of the origin under [z -> z^2 + 0] *)

Lemma juliaFractal_body_origin (center : vec2) (zoom : R) (i : Z) :
  juliaFractal_body (mkUniforms center zoom origin 2) i (mkState origin origin 65)
  = (mkState origin origin 65, false).
Proof.
  unfold juliaFractal_body; simpl.
  rewrite power_map_2, square_path_origin, length_origin.
  destruct (Rgt_dec 0 4) as [H|_]; [exfalso; lra|reflexivity].
Qed.

Lemma juliaFractal_origin_run (center : vec2) (zoom : R) (n : nat) (i : Z) :
  for_loop (juliaFractal_body (mkUniforms center zoom origin 2)) n i
           (mkState origin origin 65)
  = (mkState origin origin 65, n).
Proof.
  revert i; induction n as [|n IH]; intros i; [reflexivity|].
  cbn [for_loop]. rewrite juliaFractal_body_origin, IH. reflexivity.
Qed.

Lemma origin_color_0 (image : sampler2D) : origin_color image 0 = black.
Proof. unfold origin_color, black. apply eq_vec4; try reflexivity; field. Qed.

Lemma origin_color_step (image : sampler2D) (k : Z) :
  accumulate (origin_color image k) (rgb_of (image (uvNow_of origin))) 1
  = origin_color image (k + 1).
Proof.
  unfold origin_color. cbv zeta. rewrite accumulate_full, plus_IZR.
  apply eq_vec4; try reflexivity; field.
Qed.

Lemma imageFractal_body_origin (center : vec2) (zoom : R) (image : sampler2D) (i : Z) :
  imageFractal_body (mkUniforms center zoom origin 2) image i
    (mkImgState (origin_color image i) origin origin 65)
  = (mkImgState (origin_color image (i + 1)) origin origin 65, false).
Proof.
  unfold imageFractal_body; simpl.
  rewrite power_map_2, square_path_origin, dot_origin, mag2i_origin,
    origin_color_step.
  destruct (Rgt_dec 0 10) as [H|_]; [exfalso; lra|reflexivity].
Qed.

Lemma imageFractal_origin_run (center : vec2) (zoom : R) (image : sampler2D)
    (n : nat) (i : Z) :
  for_loop (imageFractal_body (mkUniforms center zoom origin 2) image) n i
           (mkImgState (origin_color image i) origin origin 65)
  = (mkImgState (origin_color image (i + Z.of_nat n)) origin origin 65, n).
Proof.
  revert i; induction n as [|n IH]; intros i.
  - simpl. now rewrite Z.add_0_r.
  - cbn [for_loop]. rewrite imageFractal_body_origin, IH.
    now replace (i + 1 + Z.of_nat n)%Z with (i + Z.of_nat (S n))%Z by lia.
Qed.

Lemma fieldFractal_body_origin (center : vec2) (zoom q r : R) (image : sampler2D)
    (uv z0 : vec2) (i init : Z) :
  fieldFractal_body None (mkFieldUniforms center zoom origin 2 q r) image uv z0 i
    (mkFieldState (origin_color image i) origin origin init)
  = (mkFieldState (origin_color image (i + 1)) origin origin init, false).
Proof.
  unfold fieldFractal_body; simpl.
  rewrite power_map_2, square_path_origin, dot_origin, mag2i_origin,
    origin_color_step.
  destruct (Rgt_dec 0 10) as [H|_]; [exfalso; lra|reflexivity].
Qed.

Lemma fieldFractal_origin_run (center : vec2) (zoom q r : R) (image : sampler2D)
    (uv z0 : vec2) (init : Z) (n : nat) (i : Z) :
  for_loop (fieldFractal_body None (mkFieldUniforms center zoom origin 2 q r)
              image uv z0) n i
           (mkFieldState (origin_color image i) origin origin init)
  = (mkFieldState (origin_color image (i + Z.of_nat n)) origin origin init, n).
Proof.
  revert i; induction n as [|n IH]; intros i.
  - simpl. now rewrite Z.add_0_r.
  - cbn [for_loop]. rewrite fieldFractal_body_origin, IH.
    now replace (i + 1 + Z.of_nat n)%Z with (i + Z.of_nat (S n))%Z by lia.
Qed.

(** The whole loop of the field shader on the middle pixel of a view
    centred on the origin, with [c = 0], [p = 2] and no [fieldExpr]. *)
Lemma fieldFractal_loop_origin (m : option Z) (zoom q r : R) (image : sampler2D) :
  fieldFractal_loop None m (mkFieldUniforms origin zoom origin 2 q r) image mid_uv
  = (mkFieldState (origin_color image (Z.of_nat (Z.to_nat (loop_bound m))))
                  origin origin (iter_init m),
     Z.to_nat (loop_bound m)).
Proof.
  unfold fieldFractal_loop; simpl.
  rewrite start_z_mid, <- (origin_color_0 image).
  now rewrite fieldFractal_origin_run.
Qed.

(** ** The record of [log] arguments *)

Lemma fst_bind {A B} (m : Logged A) (k : A -> Logged B) :
  fst (bind m k) = fst (k (fst m)).
Proof. unfold bind. destruct m as [a l1]. simpl. now destruct (k a). Qed.

Lemma snd_bind {A B} (m : Logged A) (k : A -> Logged B) :
  snd (bind m k) = snd m ++ snd (k (fst m)).
Proof. unfold bind. destruct m as [a l1]. simpl. now destruct (k a). Qed.

(** What [smooth_iter] hands to [log]: always [dot(z,z)], and under the
    guard also the first logarithm and the literal [2.0]. *)
Lemma smooth_iter_logs (z : vec2) (iter : Z) :
  snd (smooth_iter z iter) =
  if Rge_dec (ln (GLSL.dot z z)) 0
  then [GLSL.dot z z; ln (GLSL.dot z z); 2]
  else [GLSL.dot z z].
Proof.
  unfold smooth_iter. rewrite snd_bind. simpl. unfold GLSL.log.
  destruct (Rge_dec (ln (GLSL.dot z z)) 0); reflexivity.
Qed.

(** ** The interior test of the field shader *)

(** The loop leaves [iter] at its initial value or at the index of the
    iteration that broke, which is below the loop bound; the value the
    interior test compares with is neither. *)
Lemma fieldFractal_iter_range (fieldExpr : option FieldExpr) (m : option Z)
    (u : FieldUniforms) (image : sampler2D) (uv : vec2) :
  let s := fst (fieldFractal_loop fieldExpr m u image uv) in
  fs_iter s = iter_init m \/ (0 <= fs_iter s < loop_bound m)%Z.
Proof.
  cbv zeta. unfold fieldFractal_loop.
  set (z := start_z _ _ _). set (body := fieldFractal_body _ _ _ _ _).
  destruct (for_loop_break body
              (fun s => fs_iter s = iter_init m) (fun j s => fs_iter s = j))
    with (n := Z.to_nat (loop_bound m)) (i := 0%Z)
         (s := mkFieldState black z z (iter_init m)) as [H|[j [Hj HQ]]].
  - intros i s HP Hb. unfold body, fieldFractal_body in *.
    destruct (Rgt_dec _ 10); simpl in *; [discriminate|exact HP].
  - intros i s HP Hb. unfold body, fieldFractal_body in *.
    destruct (Rgt_dec _ 10); simpl in *; [reflexivity|discriminate].
  - reflexivity.
  - now left.
  - right. rewrite HQ. lia.
Qed.

Lemma fieldFractal_interior_test_never_holds (fieldExpr : option FieldExpr)
    (m : option Z) (u : FieldUniforms) (image : sampler2D) (uv : vec2) :
  (fs_iter (fst (fieldFractal_loop fieldExpr m u image uv))
     =? interior_test m)%Z = false.
Proof.
  apply Z.eqb_neq.
  destruct (fieldFractal_iter_range fieldExpr m u image uv) as [H|H];
    unfold iter_init, interior_test, loop_bound in *; lia.
Qed.

(** Output of the field shader on a pixel that sits at the origin with
    [c = 0], [p = 2]: the colour gathered over the [n] iterations,
    rescaled by [1 / (.01 * (n + 1))]. *)
Lemma fieldFractal_origin_output (m : option Z) (zoom q r : R) (image : sampler2D) :
  (1 <= loop_bound m)%Z ->
  let n := IZR (loop_bound m) in
  let rgb := rgb_of (image (uvNow_of origin)) in
  fst (fieldFractal_main None m (mkFieldUniforms origin zoom origin 2 q r)
         image mid_uv)
  = V4 (n / (n + 1) * v3x rgb) (n / (n + 1) * v3y rgb) (n / (n + 1) * v3z rgb) 1.
Proof.
  intros Hn n rgb. unfold fieldFractal_main.
  rewrite fieldFractal_interior_test_never_holds, fst_bind.
  rewrite fieldFractal_loop_origin. cbn [fst fs_iter fs_color ret].
  assert (Hi : (iter_init m =? 0)%Z = false)
    by (apply Z.eqb_neq; unfold iter_init, loop_bound in *; lia).
  rewrite Hi, Z2Nat.id by lia.
  unfold origin_color, mul4, iter_init; cbn [v4x v4y v4z v4w].
  fold (loop_bound m). rewrite plus_IZR. fold n. fold rgb.
  assert (0 < n) by (apply (IZR_lt 0); lia).
  apply eq_vec4; field; lra.
Qed.

(** ** Bounds on the logarithms of an escaped iterate *)

Lemma exp_3_lt_36 : exp 3 < 36.
Proof.
  replace 3 with (1 + (1 + 1)) by ring. rewrite !exp_plus.
  pose proof exp_le_3 as H. pose proof (exp_pos 1) as Hp.
  set (e := exp 1) in *. nra.
Qed.

Lemma le_36_exp_4 : 36 <= exp 4.
Proof.
  pose proof (exp_ineq1_le (1 / 8)) as H.
  assert (E2 : exp (1 / 4) = exp (1 / 8) * exp (1 / 8))
    by (rewrite <- exp_plus; f_equal; field).
  assert (E3 : exp (1 / 2) = exp (1 / 4) * exp (1 / 4))
    by (rewrite <- exp_plus; f_equal; field).
  assert (E4 : exp 1 = exp (1 / 2) * exp (1 / 2))
    by (rewrite <- exp_plus; f_equal; field).
  assert (E5 : exp 2 = exp 1 * exp 1)
    by (rewrite <- exp_plus; f_equal; field).
  assert (E6 : exp 4 = exp 2 * exp 2)
    by (rewrite <- exp_plus; f_equal; field).
  assert (B2 : 81 / 64 <= exp (1 / 4)) by nra.
  assert (B3 : 6561 / 4096 <= exp (1 / 2)) by nra.
  assert (B4 : 5 / 2 <= exp 1) by nra.
  assert (B5 : 25 / 4 <= exp 2) by nra.
  nra.
Qed.

Lemma ln_36_bounds : 3 < ln 36 <= 4.
Proof.
  split.
  - rewrite <- (ln_exp 3). apply ln_increasing; [apply exp_pos|apply exp_3_lt_36].
  - rewrite <- (ln_exp 4).
    destruct le_36_exp_4 as [H|H]; [left; apply ln_increasing; lra|right; now rewrite H].
Qed.

Lemma ln_ln_36_bounds : 3 / 2 * ln 2 < ln (ln 36) <= 2 * ln 2.
Proof.
  destruct ln_36_bounds as [Hlo Hhi].
  assert (H2 : 0 < ln 2) by (pose proof ln_lt_2; lra).
  split.
  - apply Rlt_trans with (ln 3).
    + assert (H9 : ln 9 = 2 * ln 3)
        by (replace 9 with (3 * 3) by ring; rewrite ln_mult by lra; ring).
      assert (H8 : ln 8 = 3 * ln 2)
        by (replace 8 with (2 * (2 * 2)) by ring; rewrite !ln_mult by lra; ring).
      assert (ln 8 < ln 9) by (apply ln_increasing; lra). lra.
    + apply ln_increasing; lra.
  - assert (H4 : ln 4 = 2 * ln 2)
      by (replace 4 with (2 * 2) by ring; rewrite ln_mult by lra; ring).
    rewrite <- H4.
    destruct Hhi as [H|H]; [left; apply ln_increasing; lra|right; now rewrite H].
Qed.

(** ** Alpha through the loops *)

Lemma for_loop_break_first {S : Type} (body : Z -> S -> S * bool)
    (n : nat) (i : Z) (s s' : S) :
  body i s = (s', true) -> for_loop body (Datatypes.S n) i s = (s', 1%nat).
Proof. intros H. cbn [for_loop]. now rewrite H. Qed.

Lemma imageFractal_loop_alpha (u : Uniforms) (image : sampler2D) (uv : vec2) :
  v4w (is_color (fst (imageFractal_loop u image uv))) = 1.
Proof.
  unfold imageFractal_loop.
  apply (for_loop_always _ (fun s => v4w (is_color s) = 1)); [|reflexivity].
  intros i s Hs. unfold imageFractal_body.
  destruct (Rgt_dec _ 10); cbn [fst is_color]; now rewrite accumulate_alpha.
Qed.

Lemma fieldFractal_loop_alpha (fieldExpr : option FieldExpr) (m : option Z)
    (u : FieldUniforms) (image : sampler2D) (uv : vec2) :
  v4w (fs_color (fst (fieldFractal_loop fieldExpr m u image uv))) = 1.
Proof.
  unfold fieldFractal_loop.
  apply (for_loop_always _ (fun s => v4w (fs_color s) = 1)); [|reflexivity].
  intros i s Hs. unfold fieldFractal_body.
  destruct (Rgt_dec _ 10); cbn [fst fs_color]; now rewrite accumulate_alpha.
Qed.

(** ** The built-in [atan] and the shader's [atan2] *)

Lemma radius_pos (x y : R) : x <> 0 \/ y <> 0 -> 0 < radius x y.
Proof.
  intros H. apply sqrt_lt_R0. destruct H; nra.
Qed.

Lemma radius_sqr (x y : R) : radius x y * radius x y = x * x + y * y.
Proof. apply sqrt_sqrt. nra. Qed.

Lemma sqrt_1_ratio (x y : R) :
  x <> 0 -> sqrt (1 + (y / x)²) = radius x y / Rabs x.
Proof.
  intros Hx. unfold radius.
  replace (1 + (y / x)²) with ((x * x + y * y) / x²) by (unfold Rsqr; field; exact Hx).
  rewrite sqrt_div_alt by (unfold Rsqr; nra).
  now rewrite sqrt_Rsqr_abs.
Qed.

Lemma cos_atan_ratio (x y : R) :
  x <> 0 -> radius x y * cos (Ratan.atan (y / x)) = Rabs x.
Proof.
  intros Hx. rewrite cos_atan, sqrt_1_ratio by exact Hx.
  pose proof (radius_pos x y (or_introl Hx)).
  pose proof (Rabs_pos_lt x Hx). field. split; lra.
Qed.

Lemma sin_atan_ratio (x y : R) :
  x <> 0 -> radius x y * sin (Ratan.atan (y / x)) = y * (Rabs x / x).
Proof.
  intros Hx. rewrite sin_atan, sqrt_1_ratio by exact Hx.
  pose proof (radius_pos x y (or_introl Hx)).
  pose proof (Rabs_pos_lt x Hx). field. repeat split; lra.
Qed.

Lemma cos_minus_PI (a : R) : cos (a - PI) = - cos a.
Proof. rewrite cos_minus, cos_PI, sin_PI. ring. Qed.

Lemma sin_minus_PI (a : R) : sin (a - PI) = - sin a.
Proof. rewrite sin_minus, cos_PI, sin_PI. ring. Qed.

Lemma atan_pos (t : R) : 0 < t -> 0 < Ratan.atan t.
Proof. intros H. rewrite <- atan_0. now apply atan_increasing. Qed.

Lemma atan_nonpos (t : R) : t <= 0 -> Ratan.atan t <= 0.
Proof.
  intros [H|H]; [left; rewrite <- atan_0; now apply atan_increasing|].
  rewrite H, atan_0. lra.
Qed.

(** The built-in [atan(y, x)] is the principal angle of [(x, y)]. *)
Lemma GLSL_atan_principal (x y : R) :
  x <> 0 \/ y <> 0 ->
  - PI < GLSL.atan y x <= PI /\
  radius x y * cos (GLSL.atan y x) = x /\
  radius x y * sin (GLSL.atan y x) = y.
Proof.
  intros Hnz. pose proof PI_RGT_0 as HPI.
  pose proof (atan_bound (y / x)) as Hb.
  unfold GLSL.atan.
  destruct (Rlt_dec 0 x) as [Hx|Hx].
  - assert (Hx0 : x <> 0) by lra.
    rewrite cos_atan_ratio, sin_atan_ratio by exact Hx0.
    rewrite Rabs_pos_eq by lra.
    repeat split; try lra. field; lra.
  - destruct (Rlt_dec x 0) as [Hx'|Hx'].
    + assert (Hx0 : x <> 0) by lra.
      pose proof (cos_atan_ratio x y Hx0) as Hc.
      pose proof (sin_atan_ratio x y Hx0) as Hs.
      rewrite Rabs_left in Hc, Hs by exact Hx'.
      replace (y * (- x / x)) with (- y) in Hs by (field; lra).
      destruct (Rle_dec 0 y) as [Hy|Hy].
      * rewrite neg_cos, neg_sin.
        assert (Ratan.atan (y / x) <= 0).
        { apply atan_nonpos. unfold Rdiv.
          assert (/ x < 0) by (apply Rinv_lt_0_compat; lra). nra. }
        repeat split; try lra.
      * rewrite cos_minus_PI, sin_minus_PI.
        assert (0 < Ratan.atan (y / x)).
        { apply atan_pos. unfold Rdiv.
          assert (/ x < 0) by (apply Rinv_lt_0_compat; lra). nra. }
        repeat split; try lra.
    + assert (Hx0 : x = 0) by lra. subst x.
      assert (Hy0 : y <> 0) by (destruct Hnz; [lra|assumption]).
      unfold radius. replace (0 * 0 + y * y) with (y²) by (unfold Rsqr; ring).
      rewrite sqrt_Rsqr_abs.
      destruct (Rlt_dec 0 y) as [Hy|Hy].
      * rewrite cos_PI2, sin_PI2, Rabs_pos_eq by lra. repeat split; lra.
      * destruct (Rlt_dec y 0) as [Hy'|Hy']; [|exfalso; lra].
        rewrite cos_neg, sin_neg, cos_PI2, sin_PI2, Rabs_left by lra.
        repeat split; lra.
Qed.

Lemma atan_inv_ratio (a b : R) :
  0 < a -> 0 < b -> Ratan.atan (a / b) = PI / 2 - Ratan.atan (b / a).
Proof.
  intros Ha Hb.
  replace (a / b) with (/ (b / a)) by (field; lra).
  apply atan_inv. apply Rdiv_lt_0_compat; lra.
Qed.

Lemma atan_ratio_opp_l (a b : R) : b <> 0 -> Ratan.atan (- a / b) = - Ratan.atan (a / b).
Proof. intros Hb. replace (- a / b) with (- (a / b)) by (field; exact Hb). apply atan_opp. Qed.

Lemma atan_ratio_opp_r (a b : R) : b <> 0 -> Ratan.atan (a / - b) = - Ratan.atan (a / b).
Proof. intros Hb. replace (a / - b) with (- (a / b)) by (field; exact Hb). apply atan_opp. Qed.

Lemma GLSL_atan_swap (x y : R) :
  x <> 0 \/ y <> 0 ->
  GLSL.atan x y = PI / 2 - GLSL.atan y x - third_quadrant_turn x y.
Proof.
  intros Hnz. unfold GLSL.atan, third_quadrant_turn.
  destruct (Rlt_dec 0 y) as [Hy|Hy].
  - destruct (Rlt_dec 0 x) as [Hx|Hx].
    + destruct (Rlt_dec x 0); [exfalso; lra|].
      rewrite (atan_inv_ratio x y) by lra. ring.
    + destruct (Rlt_dec x 0) as [Hx'|Hx'].
      * destruct (Rlt_dec y 0); [exfalso; lra|].
        destruct (Rle_dec 0 y); [|exfalso; lra].
        pose proof (atan_inv_ratio (- x) y ltac:(lra) Hy) as H.
        rewrite atan_ratio_opp_l, atan_ratio_opp_r in H by lra. lra.
      * assert (x = 0) by lra; subst x.
        replace (0 / y) with 0 by (field; lra). rewrite atan_0. ring.
  - destruct (Rlt_dec y 0) as [Hy'|Hy'].
    + destruct (Rlt_dec 0 x) as [Hx|Hx].
      * destruct (Rle_dec 0 x); [|exfalso; lra].
        destruct (Rlt_dec x 0); [exfalso; lra|].
        pose proof (atan_inv_ratio x (- y) Hx ltac:(lra)) as H.
        rewrite atan_ratio_opp_l, atan_ratio_opp_r in H by lra. lra.
      * destruct (Rlt_dec x 0) as [Hx'|Hx'].
        -- destruct (Rle_dec 0 x); [exfalso; lra|].
           destruct (Rle_dec 0 y); [exfalso; lra|].
           pose proof (atan_inv_ratio (- x) (- y) ltac:(lra) ltac:(lra)) as H.
           rewrite !atan_ratio_opp_l, !atan_ratio_opp_r in H by lra. lra.
        -- assert (x = 0) by lra; subst x.
           destruct (Rle_dec 0 0); [|exfalso; lra].
           replace (0 / y) with 0 by (field; lra). rewrite atan_0. lra.
    + assert (y = 0) by lra; subst y.
      assert (Hx0 : x <> 0) by (destruct Hnz; [assumption|lra]).
      destruct (Rlt_dec 0 x) as [Hx|Hx].
      * destruct (Rlt_dec x 0); [exfalso; lra|].
        replace (0 / x) with 0 by (field; lra). rewrite atan_0. ring.
      * destruct (Rlt_dec x 0) as [Hx'|Hx']; [|exfalso; lra].
        destruct (Rle_dec 0 0); [|exfalso; lra].
        replace (0 / x) with 0 by (field; lra). rewrite atan_0. lra.
Qed.

(** [atan2] in terms of the principal angle. *)
Lemma atan2_principal (x y : R) :
  x <> 0 \/ y <> 0 ->
  atan2 y x =
  GLSL.atan y x +
  (if Rgt_dec (Rabs x) (Rabs y) then 0 else third_quadrant_turn x y).
Proof.
  intros Hnz. unfold atan2, GLSL.mix, PI_literal.
  destruct (Rgt_dec (Rabs x) (Rabs y)); [ring|].
  rewrite GLSL_atan_swap by exact Hnz. field.
Qed.

(** ** The polar path at [p = 2] *)

Lemma radius_swap (x y : R) : radius y x = radius x y.
Proof. unfold radius. f_equal. ring. Qed.

(** Doubling the angle of [(x, y)] gives the direction of its square. *)
Lemma double_angle (x y a : R) :
  radius x y * cos a = x -> radius x y * sin a = y ->
  (x * x + y * y) * cos (2 * a) = x * x - y * y /\
  (x * x + y * y) * sin (2 * a) = 2 * x * y.
Proof.
  intros Hc Hs. rewrite cos_2a, sin_2a, <- radius_sqr.
  set (r := radius x y) in *. split.
  - replace (r * r * (cos a * cos a - sin a * sin a))
      with ((r * cos a) * (r * cos a) - (r * sin a) * (r * sin a)) by ring.
    now rewrite Hc, Hs.
  - replace (r * r * (2 * sin a * cos a))
      with (2 * (r * cos a) * (r * sin a)) by ring.
    now rewrite Hc, Hs.
Qed.

(** At [p = 2] the polar path is the complex square: the angle is
    doubled, so a full turn more or less in [atan2] does not show. *)
Lemma polar_path_2_square (c z : vec2) :
  polar_path 2 c z = square_path c z.
Proof.
  rewrite square_path_csquare.
  destruct c as [cx cy], z as [x y].
  unfold polar_path, csquare, add2, GLSL.dot, GLSL.pow; cbn [v2x v2y].
  destruct (Rlt_dec 0 (x * x + y * y)) as [Hd|Hd].
  - assert (Hnz : x <> 0 \/ y <> 0).
    { destruct (Req_dec x 0) as [Hx|Hx]; [|now left].
      right. intros Hy. subst. lra. }
    replace (5 / 10 * 2) with 1 by field. rewrite Rpower_1 by exact Hd.
    unfold atan2, GLSL.mix, PI_literal.
    destruct (Rgt_dec (Rabs x) (Rabs y)) as [Hg|Hg].
    + destruct (GLSL_atan_principal x y Hnz) as [_ [Hc Hs]].
      destruct (double_angle x y _ Hc Hs) as [H1 H2].
      replace (2 * ((PI / 2 - GLSL.atan x y) * (1 - 1) + GLSL.atan y x * 1))
        with (2 * GLSL.atan y x) by ring.
      now rewrite H1, H2.
    + assert (Hnz' : y <> 0 \/ x <> 0) by tauto.
      destruct (GLSL_atan_principal y x Hnz') as [_ [Hc Hs]].
      rewrite radius_swap in Hc, Hs.
      set (phi := GLSL.atan x y) in *.
      assert (Hd2 : (x * x + y * y) * cos (2 * phi) = y * y - x * x /\
                    (x * x + y * y) * sin (2 * phi) = 2 * x * y).
      { destruct (double_angle y x phi) as [H1 H2].
        - now rewrite radius_swap.
        - now rewrite radius_swap.
        - replace (x * x + y * y) with (y * y + x * x) by ring.
          split; [exact H1|rewrite H2; ring]. }
      destruct Hd2 as [H1 H2].
      replace (2 * ((PI / 2 - phi) * (1 - 0) + GLSL.atan y x * 0))
        with (- (2 * phi) + PI) by field.
      rewrite neg_cos, neg_sin, cos_neg, sin_neg.
      apply eq_vec2.
      * replace ((x * x + y * y) * - cos (2 * phi))
          with (- ((x * x + y * y) * cos (2 * phi))) by ring.
        rewrite H1. ring.
      * replace ((x * x + y * y) * - - sin (2 * phi))
          with ((x * x + y * y) * sin (2 * phi)) by ring.
        rewrite H2. ring.
  - assert (Hx : x = 0) by nra. assert (Hy : y = 0) by nra. subst.
    apply eq_vec2; ring.
Qed.

(** ** Lemmas particular to single claims *)

(** A [fieldExpr] that is the constant [t] makes every iteration use the
    exponent [q + (r - q) * t], whatever [p] is. *)
Lemma fieldFractal_main_constant (t : R) (m : option Z)
    (center : vec2) (zoom : R) (c : vec2) (p q r : R)
    (image : sampler2D) (uv : vec2) :
  fieldFractal_main (Some (fun _ => t)) m
    (mkFieldUniforms center zoom c p q r) image uv
  = fieldFractal_main None m
    (mkFieldUniforms center zoom c (q + (r - q) * t) q r) image uv.
Proof.
  unfold fieldFractal_main, fieldFractal_loop. cbn [fu_center fu_zoom].
  rewrite (for_loop_ext
             (fieldFractal_body (Some (fun _ => t))
                (mkFieldUniforms center zoom c p q r) image uv
                (start_z center zoom uv))
             (fieldFractal_body None
                (mkFieldUniforms center zoom c (q + (r - q) * t) q r) image uv
                (start_z center zoom uv))); reflexivity.
Qed.

(** The pure-colour shader on the middle pixel of a view centred on the
    origin with [c = (6, 0)], [p = 2]: the first iterate is [(6, 0)], of
    length 6, so the loop breaks with [iter = 0]. *)
Lemma juliaFractal_loop_c6 (zoom : R) :
  juliaFractal_loop (mkUniforms origin zoom (V2 6 0) 2) mid_uv
  = (mkState (V2 6 0) origin 0, 1%nat).
Proof.
  unfold juliaFractal_loop; cbn [u_center u_zoom]. rewrite start_z_mid.
  apply for_loop_break_first.
  unfold juliaFractal_body; cbn [u_p u_c st_z st_lastZ st_iter].
  rewrite power_map_2.
  assert (Hz : square_path (V2 6 0) origin = V2 6 0)
    by (unfold square_path, origin, add2, mul2, GLSL.dot; simpl;
        apply eq_vec2; ring).
  rewrite Hz.
  assert (Hl : GLSL.length (V2 6 0) = 6).
  { unfold GLSL.length, GLSL.dot; simpl.
    replace (6 * 6 + 0 * 0) with (6 * 6) by ring. apply sqrt_square; lra. }
  rewrite Hl. destruct (Rgt_dec 6 4) as [_|H]; [reflexivity|exfalso; lra].
Qed.

(** Its smooth iteration count is [- ln (ln 36) / ln 2], about [-1.84]. *)
Lemma smooth_iter_c6 :
  fst (smooth_iter (V2 6 0) 0) = 0 - ln (ln 36) / ln 2.
Proof.
  unfold smooth_iter. rewrite fst_bind. cbn [fst log_]. unfold GLSL.log.
  assert (Hd : GLSL.dot (V2 6 0) (V2 6 0) = 36)
    by (unfold GLSL.dot; simpl; ring).
  rewrite Hd. destruct ln_36_bounds as [Hlo _].
  destruct (Rge_dec (ln 36) 0) as [_|H]; [|exfalso; lra].
  rewrite !fst_bind. reflexivity.
Qed.

Lemma mod_smooth_iter_c6 : GLSL.mod_ (0 - ln (ln 36) / ln 2) 1 < 5 / 10.
Proof.
  destruct ln_ln_36_bounds as [Hlo Hhi].
  assert (H2 : 0 < ln 2) by (pose proof ln_lt_2; lra).
  set (L := ln (ln 36) / ln 2).
  assert (HL : 3 / 2 < L <= 2).
  { assert (HLe : L * ln 2 = ln (ln 36)) by (unfold L; field; lra).
    split.
    - apply Rmult_lt_reg_r with (ln 2); [exact H2|]. lra.
    - apply Rmult_le_reg_r with (ln 2); [exact H2|]. lra. }
  unfold GLSL.mod_, GLSL.floor.
  replace ((0 - L) / 1) with (0 - L) by field.
  rewrite <- (Int_part_spec (0 - L) (-2)%Z) by (simpl; lra).
  simpl; lra.
Qed.

(** Alpha of that pixel: the striping factor [0.8]. *)
Lemma juliaFractal_c6_alpha :
  v4w (fst (JuliaFractal (mkJuliaFractalProps origin 0 (V2 6 0) 2) mid_uv))
  = 8 / 10.
Proof.
  unfold JuliaFractal, juliaFractal_main; cbn [jf_center jf_zoom jf_c jf_p].
  rewrite juliaFractal_loop_c6. cbn [fst st_iter st_z Z.eqb].
  rewrite fst_bind, smooth_iter_c6.
  destruct (Rge_dec (GLSL.mod_ (0 - ln (ln 36) / ln 2) 1) (5 / 10)) as [Hge|_].
  - exfalso. pose proof mod_smooth_iter_c6. lra.
  - unfold ret, scale4, vec4_of; cbn [fst v4w]. ring.
Qed.

(** The smooth-iteration formula on an escaped iterate ([1 < |z|^2]
    suffices) takes [log] of positive numbers only. *)
Lemma smooth_iter_logs_positive (z : vec2) (iter : Z) :
  1 < GLSL.dot z z -> Forall (fun a => 0 < a) (snd (smooth_iter z iter)).
Proof.
  intros Hd. rewrite smooth_iter_logs.
  assert (Hl : 0 < ln (GLSL.dot z z))
    by (rewrite <- ln_1; apply ln_increasing; lra).
  destruct (Rge_dec _ 0); repeat constructor; lra.
Qed.

(** After the loop of the pure-colour shader, [iter] is still 65 or the
    last iterate has length above 4. *)
Lemma juliaFractal_loop_escaped (u : Uniforms) (uv : vec2) :
  let s := fst (juliaFractal_loop u uv) in
  st_iter s = 65%Z \/ ((0 <= st_iter s < 64)%Z /\ GLSL.length (st_z s) > 4).
Proof.
  cbv zeta. unfold juliaFractal_loop.
  set (z := start_z _ _ _).
  destruct (for_loop_break (juliaFractal_body u)
              (fun s => st_iter s = 65%Z)
              (fun j s => st_iter s = j /\ GLSL.length (st_z s) > 4))
    with (n := 64%nat) (i := 0%Z) (s := mkState z z 65) as [H|[j [Hj [HQ Hl]]]].
  - intros i s HP Hb. unfold juliaFractal_body in *.
    destruct (Rgt_dec _ 4); simpl in *; [discriminate|exact HP].
  - intros i s HP Hb. unfold juliaFractal_body in *.
    destruct (Rgt_dec _ 4) as [Hg|Hg]; simpl in *; [split; [reflexivity|exact Hg]|discriminate].
  - reflexivity.
  - now left.
  - right. split; [rewrite HQ; lia|exact Hl].
Qed.

(** The same for the image shader, with [|z|^2 > 10]. *)
Lemma imageFractal_loop_escaped (u : Uniforms) (image : sampler2D) (uv : vec2) :
  let s := fst (imageFractal_loop u image uv) in
  is_iter s = 65%Z \/ ((0 <= is_iter s < 64)%Z /\ GLSL.dot (is_z s) (is_z s) > 10).
Proof.
  cbv zeta. unfold imageFractal_loop.
  set (z := start_z _ _ _).
  destruct (for_loop_break (imageFractal_body u image)
              (fun s => is_iter s = 65%Z)
              (fun j s => is_iter s = j /\ GLSL.dot (is_z s) (is_z s) > 10))
    with (n := 64%nat) (i := 0%Z) (s := mkImgState black z z 65)
    as [H|[j [Hj [HQ Hl]]]].
  - intros i s HP Hb. unfold imageFractal_body in *.
    destruct (Rgt_dec _ 10); simpl in *; [discriminate|exact HP].
  - intros i s HP Hb. unfold imageFractal_body in *.
    destruct (Rgt_dec _ 10) as [Hg|Hg]; simpl in *; [split; [reflexivity|exact Hg]|discriminate].
  - reflexivity.
  - now left.
  - right. split; [rewrite HQ; lia|exact Hl].
Qed.

(** The field shader on a pixel at [(1, 0)] with [c = 0], [p = 2]: the
    orbit stays at [(1, 0)], on the unit circle. *)
Lemma fieldFractal_loop_unit (m : option Z) (zoom q r : R) (image : sampler2D) :
  fs_z (fst (fieldFractal_loop None m
               (mkFieldUniforms (V2 1 0) zoom origin 2 q r) image mid_uv))
  = V2 1 0.
Proof.
  unfold fieldFractal_loop; cbn [fu_center fu_zoom]. rewrite start_z_mid.
  apply (for_loop_always _ (fun s => fs_z s = V2 1 0)); [|reflexivity].
  intros i s Hs. unfold fieldFractal_body; cbn [fu_p0 fu_c].
  rewrite Hs, power_map_2.
  assert (Hz : square_path origin (V2 1 0) = V2 1 0)
    by (unfold square_path, origin, add2, mul2, GLSL.dot; simpl;
        apply eq_vec2; ring).
  rewrite Hz. destruct (Rgt_dec _ 10); reflexivity.
Qed.

(** * The claims *)

(** C1 (the field shader misses it).  A pixel that never escapes is to
    come out opaque black in all three shaders, for every [maxIterations].
    The pure-colour and the image shader do that: after their loops the
    pixel is black or its last iterate has escaped.  In the field shader
    the loop leaves [iter] at [maxIterations + 1] while the interior test
    compares with [maxIterations], so the test never holds: for every
    [maxIterations] with a loop bound of at least one, the middle pixel of
    a view centred on the origin ([c = 0], [p = 2], white texture) runs
    the whole loop without escaping and is not black. *)
Theorem C1_field_unescaped_pixel_is_not_black (m : option Z) (zoom q r : R) :
  (1 <= or_default m 64)%Z ->
  let props := mkJuliaFieldFractalProps origin zoom origin 2 q r white None m in
  let u := mkFieldUniforms origin (Rpower 2 (- zoom)) origin 2 q r in
  let n := IZR (or_default m 64) in
  (forall pu uv,
     let s := fst (juliaFractal_loop pu uv) in
     if (st_iter s =? 65)%Z then fst (juliaFractal_main pu uv) = black
     else GLSL.length (st_z s) > 4) /\
  (forall pu image uv,
     let s := fst (imageFractal_loop pu image uv) in
     if (is_iter s =? 65)%Z then fst (imageFractal_main pu image uv) = black
     else GLSL.dot (is_z s) (is_z s) > 10) /\
  (forall fieldExpr fu image uv,
     (fs_iter (fst (fieldFractal_loop fieldExpr m fu image uv))
        =? interior_test m)%Z = false) /\
  fs_iter (fst (fieldFractal_loop None m u white mid_uv)) = iter_init m /\
  snd (fieldFractal_loop None m u white mid_uv) = Z.to_nat (loop_bound m) /\
  fst (JuliaFieldFractal props mid_uv)
    = V4 (n / (n + 1)) (n / (n + 1)) (n / (n + 1)) 1 /\
  fst (JuliaFieldFractal props mid_uv) <> black.
Proof.
  intros Hn props u n.
  assert (Hout : fst (JuliaFieldFractal props mid_uv)
                 = V4 (n / (n + 1)) (n / (n + 1)) (n / (n + 1)) 1).
  { unfold JuliaFieldFractal, props; cbn [ff_fieldExpr ff_maxIterations
      ff_center ff_zoom ff_c ff_p ff_q ff_r ff_image].
    rewrite fieldFractal_origin_output by exact Hn.
    unfold white, rgb_of, loop_bound; cbn [v4x v4y v4z v3x v3y v3z]. fold n.
    apply eq_vec4; ring. }
  split.
  { intros pu uv s. unfold juliaFractal_main. fold s.
    destruct (Z.eqb_spec (st_iter s) 65) as [He|He]; [reflexivity|].
    destruct (juliaFractal_loop_escaped pu uv) as [H|[_ H]];
      [now elim He|exact H]. }
  split.
  { intros pu image uv s. unfold imageFractal_main. fold s.
    destruct (Z.eqb_spec (is_iter s) 65) as [He|He]; [reflexivity|].
    destruct (imageFractal_loop_escaped pu image uv) as [H|[_ H]];
      [now elim He|exact H]. }
  split; [intros; apply fieldFractal_interior_test_never_holds|].
  unfold u. rewrite fieldFractal_loop_origin. cbn [fst snd fs_iter].
  repeat split; try exact Hout.
  rewrite Hout. unfold black. intros Heq.
  assert (0 < n) by (apply (IZR_lt 0); lia).
  assert (Hx : n / (n + 1) = 0) by (apply (f_equal v4x) in Heq; exact Heq).
  assert (Hpos : 0 < n / (n + 1)) by (apply Rdiv_lt_0_compat; lra).
  lra.
Qed.

Lemma C1_field_unescaped_pixel_is_not_black_witness :
  (1 <= or_default None 64)%Z /\
  fst (JuliaFieldFractal
         (mkJuliaFieldFractalProps origin 0 origin 2 2 2 white None None) mid_uv)
  <> black.
Proof.
  split; [simpl; lia|].
  apply (C1_field_unescaped_pixel_is_not_black None 0 2 2). simpl; lia.
Defined.

(** C2 (the pure-colour shader misses it).  The image shader and the
    field shader give alpha exactly 1 for every input, on both branches,
    and the pure-colour shader gives alpha 1 on its black branch.  On its
    escaped branch the pure-colour shader multiplies all four channels by
    the striping factor, so alpha is 1 or [0.8]: the middle pixel of a
    view centred on the origin with [c = (6, 0)], [p = 2] gets alpha
    [0.8]. *)
Theorem C2_alpha (u : Uniforms) (fu : FieldUniforms) (image : sampler2D)
    (fieldExpr : option FieldExpr) (m : option Z) (uv : vec2) :
  v4w (fst (imageFractal_main u image uv)) = 1 /\
  v4w (fst (fieldFractal_main fieldExpr m fu image uv)) = 1 /\
  (let s := fst (juliaFractal_loop u uv) in
   v4w (fst (juliaFractal_main u uv)) =
   if (st_iter s =? 65)%Z then 1
   else if Rge_dec (GLSL.mod_ (fst (smooth_iter (st_z s) (st_iter s))) 1) (5 / 10)
        then 1 else 8 / 10) /\
  v4w (fst (JuliaFractal (mkJuliaFractalProps origin 0 (V2 6 0) 2) mid_uv))
  = 8 / 10.
Proof.
  split; [|split; [|split]].
  - unfold imageFractal_main.
    destruct (is_iter _ =? 65)%Z; [reflexivity|].
    rewrite fst_bind. unfold ret, mul4; cbn [fst v4w].
    rewrite imageFractal_loop_alpha. ring.
  - unfold fieldFractal_main.
    destruct (fs_iter _ =? interior_test m)%Z; [reflexivity|].
    rewrite fst_bind. unfold ret, mul4; cbn [fst v4w].
    rewrite fieldFractal_loop_alpha. ring.
  - cbv zeta. unfold juliaFractal_main.
    destruct (st_iter _ =? 65)%Z; [reflexivity|].
    rewrite fst_bind. unfold ret, scale4, vec4_of; cbn [fst v4w].
    destruct (Rge_dec _ (5 / 10)); ring.
  - exact juliaFractal_c6_alpha.
Qed.

(** C3, counterexample.  Image shader, white texture, [c = 0], [p = 2],
    pixel at the origin: the first iteration leaves every colour channel
    at [0.01]; the second one, with weight 1, raises it to [0.02], where
    [accumColor += 0.01 * (rgb - accumColor) * w] would give [0.0199]. *)
Lemma C3_counterexample :
  let u := mkUniforms origin 1 origin 2 in
  let s1 := fst (imageFractal_body u white 0 (mkImgState black origin origin 65)) in
  let rgb := rgb_of (white (uvNow_of (is_z s1))) in
  let w := mag2i_of (is_z s1) in
  is_color s1 = V4 (1 / 100) (1 / 100) (1 / 100) 1 /\
  w = 1 /\
  is_color (fst (imageFractal_body u white 1 s1)) = V4 (2 / 100) (2 / 100) (2 / 100) 1 /\
  spec_accumulate (is_color s1) rgb w = V4 (199 / 10000) (199 / 10000) (199 / 10000) 1 /\
  is_color (fst (imageFractal_body u white 1 s1)) <> spec_accumulate (is_color s1) rgb w.
Proof.
  cbv zeta.
  rewrite <- (origin_color_0 white), imageFractal_body_origin.
  cbn [fst is_color is_z]. rewrite imageFractal_body_origin.
  cbn [fst is_color]. rewrite mag2i_origin.
  assert (H1 : origin_color white (0 + 1) = V4 (1 / 100) (1 / 100) (1 / 100) 1)
    by (unfold origin_color, white, rgb_of; simpl; apply eq_vec4; lra).
  assert (H2 : origin_color white (0 + 1 + 1) = V4 (2 / 100) (2 / 100) (2 / 100) 1)
    by (unfold origin_color, white, rgb_of; simpl; apply eq_vec4; lra).
  assert (H3 : spec_accumulate (V4 (1 / 100) (1 / 100) (1 / 100) 1)
                 (rgb_of (white (uvNow_of origin))) 1
               = V4 (199 / 10000) (199 / 10000) (199 / 10000) 1)
    by (unfold spec_accumulate, white, rgb_of; simpl; apply eq_vec4; lra).
  rewrite H1, H2, H3. repeat split.
  intros Heq. apply (f_equal v4x) in Heq. simpl in Heq. lra.
Qed.

(** C3, as the shaders have it.  In every iteration of the two
    image-sampling shaders, with [rgb] the texel at
    [uvNow = z * (0.2, 0.25) + (0.5, 0.5)] and
    [w = clamp(1 / max(1, 0.35 * |z|^2), 0, 1)], each colour channel [a]
    becomes [a + 0.01 * mix(a, rgb, w) = a + 0.01 * (a + (rgb - a) * w)]:
    only the step from [a] toward [rgb] is weighted by [w], and alpha is
    left alone. *)
Theorem C3_accumulation_step (u : Uniforms) (fu : FieldUniforms)
    (fieldExpr : option FieldExpr) (image : sampler2D) (uv z0 : vec2) (i : Z)
    (color : vec4) (z lastZ : vec2) (iter : Z) :
  let uvNow := V2 (v2x z * (2 / 10) + 5 / 10) (v2y z * (25 / 100) + 5 / 10) in
  let rgb := rgb_of (image uvNow) in
  let w := Rmin (Rmax (1 / Rmax 1 (35 / 100 * (v2x z * v2x z + v2y z * v2y z))) 0) 1 in
  let step := V4 (v4x color + 1 / 100 * (v4x color + (v3x rgb - v4x color) * w))
                 (v4y color + 1 / 100 * (v4y color + (v3y rgb - v4y color) * w))
                 (v4z color + 1 / 100 * (v4z color + (v3z rgb - v4z color) * w))
                 (v4w color) in
  is_color (fst (imageFractal_body u image i (mkImgState color z lastZ iter))) = step /\
  fs_color (fst (fieldFractal_body fieldExpr fu image uv z0 i
                   (mkFieldState color z lastZ iter))) = step.
Proof.
  intros uvNow rgb w step.
  assert (Hacc : accumulate color (rgb_of (image (uvNow_of z))) (mag2i_of z) = step).
  { unfold accumulate, step, rgb, w, uvNow, uvNow_of, mag2i_of, GLSL.clamp,
      GLSL.mix3, GLSL.mix, GLSL.dot, set_rgb, add3, scale3, rgb_of, add2, mul2;
      cbn [v2x v2y v3x v3y v3z v4x v4y v4z v4w].
    apply eq_vec4; try reflexivity; ring. }
  split.
  - unfold imageFractal_body; cbn [is_z is_color].
    destruct (Rgt_dec _ 10); cbn [fst is_color]; exact Hacc.
  - unfold fieldFractal_body; cbn [fs_z fs_color].
    destruct (Rgt_dec _ 10); cbn [fst fs_color]; exact Hacc.
Qed.

(** [atan2] on [(x, y) = (-1, -1)]: the test [|x| > |y|] fails, so the
    result is [pi/2 - atan(x, y)] with [atan(-1, -1) = -3*PI/4], that is
    [5*PI/4]. *)
Lemma atan2_third_quadrant_diagonal :
  GLSL.atan (-1) (-1) = - (3 * PI / 4) /\
  atan2 (-1) (-1) = 5 * PI / 4.
Proof.
  assert (Ha : GLSL.atan (-1) (-1) = - (3 * PI / 4)).
  { unfold GLSL.atan.
    destruct (Rlt_dec 0 (-1)); [exfalso; lra|].
    destruct (Rlt_dec (-1) 0); [|exfalso; lra].
    destruct (Rle_dec 0 (-1)); [exfalso; lra|].
    replace (-1 / -1) with 1 by field. rewrite atan_1. field. }
  split; [exact Ha|].
  unfold atan2, GLSL.mix, PI_literal.
  destruct (Rgt_dec (Rabs (-1)) (Rabs (-1))); [exfalso; lra|].
  rewrite Ha. field.
Qed.

(** C4 (the code misses it in one octant).  For every
    [(x, y) <> (0, 0)], with [alpha = atan(y, x)] the principal angle of
    [(x, y)] (in [(-PI, PI]], [r cos alpha = x], [r sin alpha = y]),
    [atan2(y, x)] is [alpha], as the claim says, except where [x < 0],
    [y < 0] and [|x| <= |y|]: there the branch [pi/2 - atan(x, y)] is
    taken and gives [alpha + 2*PI], above [PI], where the other branch,
    [atan(y, x)], would give [alpha].  At [(-1, -1)] the result is
    [5*PI/4], not [-3*PI/4]. *)
Theorem C4_atan2_angle (x y : R) :
  x <> 0 \/ y <> 0 ->
  let alpha := GLSL.atan y x in
  - PI < alpha <= PI /\
  radius x y * cos alpha = x /\
  radius x y * sin alpha = y /\
  atan2 y x =
    alpha + (if Rgt_dec (Rabs x) (Rabs y) then 0 else third_quadrant_turn x y) /\
  GLSL.atan (-1) (-1) = - (3 * PI / 4) /\
  atan2 (-1) (-1) = 5 * PI / 4 /\
  ~ (- PI < atan2 (-1) (-1) <= PI).
Proof.
  intros Hnz alpha.
  destruct (GLSL_atan_principal x y Hnz) as [Hr [Hc Hs]].
  destruct atan2_third_quadrant_diagonal as [Ha Hv].
  split; [exact Hr|]. split; [exact Hc|]. split; [exact Hs|].
  split; [now apply atan2_principal|].
  split; [exact Ha|]. split; [exact Hv|].
  rewrite Hv. intros [_ Hle]. pose proof PI_RGT_0. lra.
Qed.

Lemma C4_atan2_angle_witness :
  (-1 <> 0 \/ -1 <> 0) /\ atan2 (-1) (-1) = GLSL.atan (-1) (-1) + 2 * PI.
Proof.
  split; [left; lra|].
  destruct (C4_atan2_angle (-1) (-1)) as [_ [_ [_ [H _]]]]; [left; lra|].
  rewrite H. unfold third_quadrant_turn.
  destruct (Rgt_dec (Rabs (-1)) (Rabs (-1))); [exfalso; lra|].
  destruct (Rlt_dec (-1) 0); [reflexivity|exfalso; lra].
Defined.

(** C5 (the field shader misses it).  In the pure-colour shader and in
    the image shader every argument of [log] is strictly positive: the
    formula is reached only with an escaped iterate.  The field shader
    reaches the formula for every pixel, escaped or not.  On a pixel at
    the origin with [c = 0], [p = 2] it takes [log] of [dot(z,z) = 0]
    (and, [log 0] being [0] here, once more under the guard).  On a pixel
    at [(1, 0)] it takes [log] of [dot(z,z) = 1], which is [0], and the
    guard [fiter >= 0.0] lets [log(0)] through. *)
Theorem C5_log_arguments (u : Uniforms) (image : sampler2D) (uv : vec2)
    (zoom q r : R) :
  Forall (fun a => 0 < a) (snd (juliaFractal_main u uv)) /\
  Forall (fun a => 0 < a) (snd (imageFractal_main u image uv)) /\
  snd (JuliaFieldFractal
         (mkJuliaFieldFractalProps origin zoom origin 2 q r image None None)
         mid_uv) = [0; 0; 2] /\
  snd (JuliaFieldFractal
         (mkJuliaFieldFractalProps (V2 1 0) zoom origin 2 q r image None None)
         mid_uv) = [1; 0; 2].
Proof.
  split; [|split; [|split]].
  - unfold juliaFractal_main.
    destruct (juliaFractal_loop_escaped u uv) as [H|[Hj Hl]].
    + rewrite H. constructor.
    + destruct (Z.eqb_spec (st_iter (fst (juliaFractal_loop u uv))) 65);
        [constructor|].
      rewrite snd_bind. cbn [snd ret]. rewrite app_nil_r.
      apply smooth_iter_logs_positive. apply length_gt_4 in Hl. lra.
  - unfold imageFractal_main.
    destruct (imageFractal_loop_escaped u image uv) as [H|[Hj Hl]].
    + rewrite H. constructor.
    + destruct (Z.eqb_spec (is_iter (fst (imageFractal_loop u image uv))) 65);
        [constructor|].
      rewrite snd_bind. cbn [snd ret]. rewrite app_nil_r.
      apply smooth_iter_logs_positive. lra.
  - unfold JuliaFieldFractal, fieldFractal_main; cbn [ff_fieldExpr
      ff_maxIterations ff_center ff_zoom ff_c ff_p ff_q ff_r ff_image].
    rewrite fieldFractal_interior_test_never_holds, snd_bind.
    cbn [snd ret]. rewrite app_nil_r, smooth_iter_logs.
    rewrite fieldFractal_loop_origin. cbn [fst fs_z].
    rewrite dot_origin, (ln_nonpos 0) by lra.
    destruct (Rge_dec 0 0) as [_|H]; [reflexivity|exfalso; lra].
  - unfold JuliaFieldFractal, fieldFractal_main; cbn [ff_fieldExpr
      ff_maxIterations ff_center ff_zoom ff_c ff_p ff_q ff_r ff_image].
    rewrite fieldFractal_interior_test_never_holds, snd_bind.
    cbn [snd ret]. rewrite app_nil_r, smooth_iter_logs.
    rewrite fieldFractal_loop_unit.
    assert (Hd : GLSL.dot (V2 1 0) (V2 1 0) = 1)
      by (unfold GLSL.dot; simpl; ring).
    rewrite Hd, ln_1.
    destruct (Rge_dec 0 0) as [_|H]; [reflexivity|exfalso; lra].
Qed.

(** C6.  For every [z] and [c], one application of the [p = 2.0] fast
    path, [c + (z.re^2 - z.im^2, 2 * z.re * z.im)], equals one application
    of the polar path, [c + (scale * cos theta, scale * sin theta)] with
    [scale = (|z|^2)^(p/2)] and [theta = p * atan2(z.im, z.re)], at
    [p = 2]; the fast path is the one the power map takes at [p = 2]. *)
Theorem C6_fast_path_and_polar_path (c z : vec2) :
  square_path c z = add2 c (csquare z) /\
  polar_path 2 c z = square_path c z /\
  power_map 2 c z = square_path c z.
Proof.
  split; [apply square_path_csquare|].
  split; [apply polar_path_2_square|apply power_map_2].
Qed.

(** C7.  For every pixel and configuration, the field shader with the
    constant [fieldExpr] [0] gives the output of the shader without
    [fieldExpr] and with exponent [p = q], and with the constant [1] that
    of the shader with [p = r]. *)
Theorem C7_constant_fieldExpr (center : vec2) (zoom : R) (c : vec2) (p q r : R)
    (image : sampler2D) (m : option Z) (uv : vec2) :
  JuliaFieldFractal
    (mkJuliaFieldFractalProps center zoom c p q r image (Some (fun _ => 0)) m) uv
  = JuliaFieldFractal
    (mkJuliaFieldFractalProps center zoom c q q r image None m) uv
  /\
  JuliaFieldFractal
    (mkJuliaFieldFractalProps center zoom c p q r image (Some (fun _ => 1)) m) uv
  = JuliaFieldFractal
    (mkJuliaFieldFractalProps center zoom c r q r image None m) uv.
Proof.
  unfold JuliaFieldFractal; cbn [ff_fieldExpr ff_maxIterations
      ff_center ff_zoom ff_c ff_p ff_q ff_r ff_image].
  rewrite !fieldFractal_main_constant.
  replace (q + (r - q) * 0) with q by ring.
  replace (q + (r - q) * 1) with r by ring.
  split; reflexivity.
Qed.

(** C8.  The pixel-to-plane mapping: with
    [extent = 2^(-zoomPower) * (5, 4)] the loop starts at
    [z0 = (center - 0.5 * extent) + uv * extent]; the mapping is affine in
    [uv], and [uv = (z0 - leftBottom) / extent] for every [center],
    [zoomPower] and [uv]. *)
Theorem C8_coordinate_mapping_invertible (center uv : vec2) (zoomPower : R) :
  let zoom := Rpower 2 (- zoomPower) in
  let extent := V2 (Rpower 2 (- zoomPower) * 5) (Rpower 2 (- zoomPower) * 4) in
  zRange zoom = extent /\
  leftBottom center zoom = sub2 center (scale2 (1 / 2) extent) /\
  start_z center zoom uv = add2 (leftBottom center zoom) (mul2 uv extent) /\
  (forall a b t,
     start_z center zoom (add2 (scale2 t a) (scale2 (1 - t) b))
     = add2 (scale2 t (start_z center zoom a))
            (scale2 (1 - t) (start_z center zoom b))) /\
  div2 (sub2 (start_z center zoom uv) (leftBottom center zoom)) (zRange zoom) = uv /\
  (forall c p,
     juliaFractal_loop (mkUniforms center zoom c p) uv
     = for_loop (juliaFractal_body (mkUniforms center zoom c p)) 64 0%Z
         (mkState (start_z center zoom uv) (start_z center zoom uv) 65)).
Proof.
  intros zoom extent.
  assert (Hz : 0 < zoom) by apply exp_pos.
  destruct center as [cx cy], uv as [ux uy].
  unfold extent, start_z, leftBottom, zRange, fullExtent,
    add2, sub2, mul2, div2, scale2; cbn [v2x v2y]. fold zoom.
  repeat split; try (apply eq_vec2; field; lra).
  intros [ax ay] [bx by_] t; cbn [v2x v2y]. apply eq_vec2; ring.
Qed.

(** C9 (the field shader misses it).  With [p = 2] and [c = (0,0)] the
    orbit started at [(0,0)] stays there: each of the three loops runs
    its 64 iterations without a break and ends with [z = (0,0)].  The
    pure-colour and the image shader then give opaque black; the field
    shader does not take its black branch and gives, with a white
    texture, [64/65] in every colour channel. *)
Theorem C9_origin_never_escapes (zoom q r : R) (image : sampler2D) :
  let u := mkUniforms origin (Rpower 2 (- zoom)) origin 2 in
  let fu := mkFieldUniforms origin (Rpower 2 (- zoom)) origin 2 q r in
  (forall n, for_loop (juliaFractal_body u) n 0%Z (mkState origin origin 65)
             = (mkState origin origin 65, n)) /\
  (st_z (fst (juliaFractal_loop u mid_uv)) = origin /\
   snd (juliaFractal_loop u mid_uv) = 64%nat) /\
  (is_z (fst (imageFractal_loop u image mid_uv)) = origin /\
   snd (imageFractal_loop u image mid_uv) = 64%nat) /\
  (fs_z (fst (fieldFractal_loop None None fu image mid_uv)) = origin /\
   snd (fieldFractal_loop None None fu image mid_uv) = 64%nat) /\
  fst (JuliaFractal (mkJuliaFractalProps origin zoom origin 2) mid_uv) = black /\
  fst (JuliaImageFractal (mkJuliaImageFractalProps origin zoom origin 2 image)
         mid_uv) = black /\
  fst (JuliaFieldFractal
         (mkJuliaFieldFractalProps origin zoom origin 2 q r white None None)
         mid_uv) = V4 (64 / 65) (64 / 65) (64 / 65) 1.
Proof.
  intros u fu.
  assert (Hj : juliaFractal_loop u mid_uv = (mkState origin origin 65, 64%nat)).
  { unfold juliaFractal_loop, u; cbn [u_center u_zoom]. rewrite start_z_mid.
    apply juliaFractal_origin_run. }
  assert (Hi : imageFractal_loop u image mid_uv
               = (mkImgState (origin_color image 64) origin origin 65, 64%nat)).
  { unfold imageFractal_loop, u; cbn [u_center u_zoom].
    rewrite start_z_mid, <- (origin_color_0 image).
    now rewrite imageFractal_origin_run. }
  split; [intros n; apply juliaFractal_origin_run|].
  split; [now rewrite Hj|].
  split; [now rewrite Hi|].
  split; [unfold fu; now rewrite fieldFractal_loop_origin|].
  split; [unfold JuliaFractal, juliaFractal_main; cbn [jf_center jf_zoom jf_c jf_p];
          fold u; now rewrite Hj|].
  split; [unfold JuliaImageFractal, imageFractal_main;
          cbn [ji_center ji_zoom ji_c ji_p ji_image]; fold u; now rewrite Hi|].
  unfold JuliaFieldFractal; cbn [ff_fieldExpr ff_maxIterations
      ff_center ff_zoom ff_c ff_p ff_q ff_r ff_image].
  rewrite fieldFractal_origin_output by (simpl; lia).
  unfold white, rgb_of, loop_bound; cbn [v4x v4y v4z v3x v3y v3z or_default].
  apply eq_vec4; field.
Qed.

(** C10.  With [maxIterations] left out, and also with [maxIterations = 0],
    the field shader is compiled with 64 as loop bound and as the value of
    the interior test; the shader for [0] is the shader for the missing
    prop, its loop body runs at most 64 times, and on a pixel that never
    escapes it runs 64 times, not 0. *)
Theorem C10_maxIterations_zero_means_64 :
  loop_bound None = 64%Z /\ interior_test None = 64%Z /\
  loop_bound (Some 0%Z) = 64%Z /\ interior_test (Some 0%Z) = 64%Z /\
  (forall fieldExpr u image uv,
     fieldFractal_main fieldExpr (Some 0%Z) u image uv
     = fieldFractal_main fieldExpr None u image uv) /\
  (forall fieldExpr u image uv,
     (snd (fieldFractal_loop fieldExpr (Some 0%Z) u image uv) <= 64)%nat) /\
  (forall zoom q r image,
     snd (fieldFractal_loop None (Some 0%Z)
            (mkFieldUniforms origin zoom origin 2 q r) image mid_uv) = 64%nat).
Proof.
  repeat split; try reflexivity.
  - intros. apply (for_loop_trips_le _ 64).
  - intros. now rewrite fieldFractal_loop_origin.
Qed.

(** * Further properties of the shaders *)

(** ** Built-ins: [clamp], [mix], [fract] *)

Lemma clamp_range (x lo hi : R) : lo <= hi -> lo <= GLSL.clamp x lo hi <= hi.
Proof.
  intros H. unfold GLSL.clamp. split.
  - apply Rmin_glb; [apply Rmax_r|exact H].
  - apply Rmin_r.
Qed.

Lemma mix_between (a b t : R) :
  0 <= t <= 1 -> a <= b -> a <= GLSL.mix a b t <= b.
Proof. intros Ht Hab. unfold GLSL.mix. split; nra. Qed.

Lemma floor_succ (x : R) : GLSL.floor (x + 1) = GLSL.floor x + 1.
Proof.
  unfold GLSL.floor. destruct (base_Int_part x) as [H1 H2].
  rewrite <- (Int_part_spec (x + 1) (Int_part x + 1)).
  - now rewrite plus_IZR.
  - rewrite plus_IZR. simpl. lra.
Qed.

Lemma fract_succ (x : R) : GLSL.fract (x + 1) = GLSL.fract x.
Proof. unfold GLSL.fract. rewrite floor_succ. ring. Qed.

Lemma fract_range (x : R) : 0 <= GLSL.fract x < 1.
Proof.
  unfold GLSL.fract, GLSL.floor. destruct (base_Int_part x) as [H1 H2]. lra.
Qed.

Lemma hsv2rgb_channels (h s v : R) :
  hsv2rgb (V3 h s v)
  = V3 (hsv_channel 1 h s v) (hsv_channel (2 / 3) h s v) (hsv_channel (1 / 3) h s v).
Proof. reflexivity. Qed.

Lemma hsv_channel_range (k h s v : R) :
  0 <= s <= 1 -> 0 <= v -> v * (1 - s) <= hsv_channel k h s v <= v.
Proof.
  intros Hs Hv. unfold hsv_channel, GLSL.mix.
  pose proof (clamp_range (Rabs (GLSL.fract (h + k) * 6 - 3) - 1) 0 1 ltac:(lra)) as Hc.
  set (t := GLSL.clamp _ 0 1) in *.
  assert (Hm : 1 - s <= 1 * (1 - s) + t * s <= 1) by (split; nra).
  set (m := 1 * (1 - s) + t * s) in *. split; nra.
Qed.

Lemma hsv_channel_period (k h s v : R) :
  hsv_channel k (h + 1) s v = hsv_channel k h s v.
Proof.
  unfold hsv_channel. replace (h + 1 + k) with (h + k + 1) by ring.
  now rewrite fract_succ.
Qed.

(** X1.  For a saturation in [[0, 1]] and a value that is not negative,
    every channel of [hsv2rgb] lies between [v * (1 - s)] and [v],
    whatever the hue. *)
Theorem X1_hsv2rgb_range (h s v : R) :
  0 <= s <= 1 -> 0 <= v ->
  let c := hsv2rgb (V3 h s v) in
  v * (1 - s) <= v3x c <= v /\
  v * (1 - s) <= v3y c <= v /\
  v * (1 - s) <= v3z c <= v.
Proof.
  intros Hs Hv c. unfold c. rewrite hsv2rgb_channels. cbn [v3x v3y v3z].
  repeat split; apply hsv_channel_range; assumption.
Qed.

Lemma X1_hsv2rgb_range_witness :
  8 / 10 * (1 - 8 / 10) <= v3x (hsv2rgb (V3 (1 / 4) (8 / 10) (8 / 10))) <= 8 / 10.
Proof. apply (X1_hsv2rgb_range (1 / 4) (8 / 10) (8 / 10)); lra. Defined.

(** X2.  [hsv2rgb] has period 1 in the hue. *)
Theorem X2_hsv2rgb_hue_period (h s v : R) :
  hsv2rgb (V3 (h + 1) s v) = hsv2rgb (V3 h s v).
Proof. rewrite !hsv2rgb_channels, !hsv_channel_period. reflexivity. Qed.

Lemma ratio_bound (n d e : R) :
  0 <= d -> 0 < e -> - d <= n <= d -> - (1 / 6) < n / (6 * d + e) < 1 / 6.
Proof.
  intros Hd He Hn.
  assert (Hpos : 0 < 6 * d + e) by lra.
  assert (Hi : 0 < / (6 * d + e)) by now apply Rinv_0_lt_compat.
  assert (H1 : (6 * d + e) * / (6 * d + e) = 1) by (apply Rinv_r; lra).
  unfold Rdiv. set (k := / (6 * d + e)) in *. split; nra.
Qed.

(** [rgb2hsv]: the third component is the largest channel and the second
    is [(max - min) / (max + 1e-10)]; the hue lies in [[0, 1]]. *)
Lemma rgb2hsv_components (r g b : R) :
  let hsv := rgb2hsv (V3 r g b) in
  let hi := Rmax r (Rmax g b) in
  let lo := Rmin r (Rmin g b) in
  v3z hsv = hi /\
  v3y hsv = (hi - lo) / (hi + 1 / 10000000000) /\
  0 <= v3x hsv <= 1.
Proof.
  cbv zeta. unfold rgb2hsv; cbn [v3x v3y v3z v4x v4y v4z v4w].
  destruct (Rlt_dec g b) as [Hgb|Hgb]; cbn [v4x v4y v4z v4w];
    [destruct (Rlt_dec r b) as [Hr|Hr]|destruct (Rlt_dec r g) as [Hr|Hr]];
    cbn [v4x v4y v4z v4w].
  - assert (Hhi : Rmax r (Rmax g b) = b)
      by (rewrite (Rmax_right g b) by lra; apply Rmax_right; lra).
    assert (Hlo : Rmin r (Rmin g b) = Rmin r g)
      by (rewrite (Rmin_left g b) by lra; reflexivity).
    rewrite Hhi, Hlo. repeat split; try apply Rabs_pos.
    assert (Hd : 0 <= b - Rmin r g /\ - (b - Rmin r g) <= r - g <= b - Rmin r g)
      by (unfold Rmin; destruct (Rle_dec r g); lra).
    destruct Hd as [Hd Hn].
    pose proof (ratio_bound (r - g) (b - Rmin r g) (1 / 10000000000)
                  Hd ltac:(lra) Hn) as Hb.
    apply Rabs_le. lra.
  - assert (Hhi : Rmax r (Rmax g b) = r)
      by (rewrite (Rmax_right g b) by lra; apply Rmax_left; lra).
    assert (Hlo : Rmin r (Rmin g b) = Rmin b g).
    { rewrite (Rmin_left g b), (Rmin_right r g), (Rmin_right b g) by lra.
      reflexivity. }
    rewrite Hhi, Hlo. repeat split; try apply Rabs_pos.
    assert (Hd : 0 <= r - Rmin b g /\ - (r - Rmin b g) <= b - g <= r - Rmin b g)
      by (unfold Rmin; destruct (Rle_dec b g); lra).
    destruct Hd as [Hd Hn].
    pose proof (ratio_bound (b - g) (r - Rmin b g) (1 / 10000000000)
                  Hd ltac:(lra) Hn) as Hb.
    apply Rabs_le. rewrite (Rmin_right b g) in * by lra.
    assert (0 <= (b - g) / (6 * (r - g) + 1 / 10000000000)).
    { apply Rmult_le_pos; [lra|]. left. apply Rinv_0_lt_compat. lra. }
    lra.
  - assert (Hhi : Rmax r (Rmax g b) = g)
      by (rewrite (Rmax_left g b) by lra; apply Rmax_right; lra).
    assert (Hlo : Rmin r (Rmin g b) = Rmin r b)
      by (rewrite (Rmin_right g b) by lra; reflexivity).
    rewrite Hhi, Hlo. repeat split; try apply Rabs_pos.
    assert (Hd : 0 <= g - Rmin r b /\ - (g - Rmin r b) <= r - b <= g - Rmin r b)
      by (unfold Rmin; destruct (Rle_dec r b); lra).
    destruct Hd as [Hd Hn].
    pose proof (ratio_bound (r - b) (g - Rmin r b) (1 / 10000000000)
                  Hd ltac:(lra) Hn) as Hb.
    apply Rabs_le. lra.
  - assert (Hhi : Rmax r (Rmax g b) = r)
      by (rewrite (Rmax_left g b) by lra; apply Rmax_left; lra).
    assert (Hlo : Rmin r (Rmin g b) = Rmin g b).
    { rewrite (Rmin_right g b) by lra. apply Rmin_right; lra. }
    rewrite Hhi, Hlo. repeat split; try apply Rabs_pos.
    assert (Hd : 0 <= r - Rmin g b /\ - (r - Rmin g b) <= g - b <= r - Rmin g b)
      by (unfold Rmin; destruct (Rle_dec g b); lra).
    destruct Hd as [Hd Hn].
    pose proof (ratio_bound (g - b) (r - Rmin g b) (1 / 10000000000)
                  Hd ltac:(lra) Hn) as Hb.
    apply Rabs_le. lra.
Qed.

(** X3.  [rgb2hsv] returns the largest channel as value,
    [(max - min) / (max + 1e-10)] as saturation, and a hue in [[0, 1]]. *)
Theorem X3_rgb2hsv_max_chroma_hue (r g b : R) :
  let hsv := rgb2hsv (V3 r g b) in
  let hi := Rmax r (Rmax g b) in
  let lo := Rmin r (Rmin g b) in
  v3z hsv = hi /\
  v3y hsv = (hi - lo) / (hi + 1 / 10000000000) /\
  0 <= v3x hsv <= 1.
Proof. exact (rgb2hsv_components r g b). Qed.

Lemma chroma_ratio_range (lo hi e : R) :
  0 <= lo <= hi -> 0 < e -> 0 <= (hi - lo) / (hi + e) < 1.
Proof.
  intros Hlo He.
  assert (Hi : 0 < / (hi + e)) by (apply Rinv_0_lt_compat; lra).
  assert (H1 : (hi + e) * / (hi + e) = 1) by (apply Rinv_r; lra).
  unfold Rdiv. split.
  - apply Rmult_le_pos; lra.
  - rewrite <- H1. apply Rmult_lt_compat_r; lra.
Qed.

(** X4.  For channels that are not negative the saturation of [rgb2hsv]
    lies in [[0, 1]], and the [1e-10] in its denominator keeps the
    division defined at black. *)
Theorem X4_rgb2hsv_saturation (r g b : R) :
  0 <= r -> 0 <= g -> 0 <= b ->
  0 <= v3y (rgb2hsv (V3 r g b)) <= 1 /\
  0 < Rmax r (Rmax g b) + 1 / 10000000000.
Proof.
  intros Hr Hg Hb.
  destruct (rgb2hsv_components r g b) as [_ [Hs _]]. rewrite Hs.
  assert (Hlo : 0 <= Rmin r (Rmin g b) <= Rmax r (Rmax g b)).
  { split.
    - apply Rmin_glb; [exact Hr|apply Rmin_glb; assumption].
    - apply Rle_trans with r; [apply Rmin_l|apply Rmax_l]. }
  destruct (chroma_ratio_range _ _ (1 / 10000000000) Hlo ltac:(lra)) as [H0 H1].
  split; [split; [exact H0|left; exact H1]|].
  destruct Hlo as [Ha Hb']. apply Rle_lt_trans with (Rmax r (Rmax g b)); [|lra].
  now apply Rle_trans with (Rmin r (Rmin g b)).
Qed.

Lemma X4_rgb2hsv_saturation_witness :
  0 <= v3y (rgb2hsv (V3 1 (1 / 2) 0)) <= 1.
Proof. apply X4_rgb2hsv_saturation; lra. Defined.

(** X5.  A grey [(v, v, v)] has hue 0 and saturation 0, and
    [hsv2rgb (rgb2hsv grey)] is the same grey. *)
Theorem X5_grey_round_trip (v : R) :
  rgb2hsv (V3 v v v) = V3 0 0 v /\
  hsv2rgb (rgb2hsv (V3 v v v)) = V3 v v v.
Proof.
  assert (H : rgb2hsv (V3 v v v) = V3 0 0 v).
  { unfold rgb2hsv; cbn [v3x v3y v3z v4x v4y v4z v4w].
    destruct (Rlt_dec v v) as [Hlt|_]; [exfalso; lra|].
    cbn [v4x v4y v4z v4w].
    destruct (Rlt_dec v v) as [Hlt|_]; [exfalso; lra|].
    cbn [v4x v4y v4z v4w].
    rewrite Rmin_left by lra.
    replace (v - v) with 0 by ring.
    unfold Rdiv. rewrite !Rmult_0_l, Rplus_0_l, Rabs_R0. reflexivity. }
  split; [exact H|]. rewrite H, hsv2rgb_channels.
  unfold hsv_channel, GLSL.mix. f_equal; ring.
Qed.

(** X6.  The pure-colour shader paints a pixel black exactly when its
    orbit did not escape: otherwise the last iterate is longer than 4 and
    every colour channel lies between [0.128] and [0.8]. *)
Theorem X6_juliaFractal_black_iff_unescaped (u : Uniforms) (uv : vec2) :
  let s := fst (juliaFractal_loop u uv) in
  let out := fst (juliaFractal_main u uv) in
  (st_iter s = 65%Z /\ out = black) \/
  ((0 <= st_iter s < 64)%Z /\ GLSL.length (st_z s) > 4 /\
   128 / 1000 <= v4x out <= 8 / 10 /\
   128 / 1000 <= v4y out <= 8 / 10 /\
   128 / 1000 <= v4z out <= 8 / 10).
Proof.
  intros s out. unfold out, juliaFractal_main. fold s.
  destruct (juliaFractal_loop_escaped u uv) as [H|[Hi Hl]]; fold s in H || fold s in Hi, Hl.
  - left. rewrite H. split; reflexivity.
  - right. split; [exact Hi|]. split; [exact Hl|].
    destruct (Z.eqb_spec (st_iter s) 65) as [He|_]; [exfalso; lia|].
    rewrite fst_bind. set (fiter := fst (smooth_iter (st_z s) (st_iter s))).
    cbn [ret fst]. rewrite hsv2rgb_channels.
    unfold scale4, vec4_of; cbn [v4x v4y v4z v3x v3y v3z].
    pose proof (hsv_channel_range 1 (fiter / 64) (8 / 10) (8 / 10)
                  ltac:(lra) ltac:(lra)) as H1.
    pose proof (hsv_channel_range (2 / 3) (fiter / 64) (8 / 10) (8 / 10)
                  ltac:(lra) ltac:(lra)) as H2.
    pose proof (hsv_channel_range (1 / 3) (fiter / 64) (8 / 10) (8 / 10)
                  ltac:(lra) ltac:(lra)) as H3.
    destruct (Rge_dec (GLSL.mod_ fiter 1) (5 / 10)); repeat split; lra.
Qed.

(** The falloff weight, by cases, and its range. *)
Lemma mag2i_falloff (z : vec2) :
  mag2i_of z =
    (if Rle_dec (35 / 100 * GLSL.dot z z) 1 then 1
     else 1 / (35 / 100 * GLSL.dot z z)) /\
  0 < mag2i_of z <= 1.
Proof.
  unfold mag2i_of, GLSL.clamp. set (m := 35 / 100 * GLSL.dot z z).
  destruct (Rle_dec m 1) as [Hm|Hm].
  - rewrite (Rmax_left 1 m) by exact Hm.
    replace (1 / 1) with 1 by field.
    rewrite (Rmax_left 1 0), Rmin_left by lra. split; [reflexivity|lra].
  - rewrite (Rmax_right 1 m) by lra.
    assert (Hi : 0 < / m) by (apply Rinv_0_lt_compat; lra).
    assert (Hl : / m < 1).
    { rewrite <- Rinv_1. apply Rinv_lt_contravar; lra. }
    unfold Rdiv. rewrite Rmult_1_l.
    rewrite (Rmax_left (/ m) 0), Rmin_left by lra. split; [reflexivity|lra].
Qed.

(** X7.  The falloff weight is 1 while [0.35 * |z|^2 <= 1] and
    [1 / (0.35 * |z|^2)] beyond; it always lies in [(0, 1]], so the
    [clamp] around it never cuts. *)
Theorem X7_mag2i_weight (z : vec2) :
  mag2i_of z =
    (if Rle_dec (35 / 100 * GLSL.dot z z) 1 then 1
     else 1 / (35 / 100 * GLSL.dot z z)) /\
  0 < mag2i_of z <= 1.
Proof. exact (mag2i_falloff z). Qed.

(** X8.  The texel a pixel samples first: the texture is looked up in a
    window around [center / fullExtent + 1/2] whose size is the linear
    zoom; with [center = (0,0)] and [zoom = 0] pixel [uv] samples texel
    [uv]. *)
Theorem X8_first_texel (center uv : vec2) (zoom : R) :
  uvNow_of (start_z center zoom uv)
  = V2 (v2x center / 5 + 1 / 2 + zoom * (v2x uv - 1 / 2))
       (v2y center / 4 + 1 / 2 + zoom * (v2y uv - 1 / 2)) /\
  uvNow_of (start_z origin (Rpower 2 (- 0)) uv) = uv.
Proof.
  assert (H : forall ce zo, uvNow_of (start_z ce zo uv)
              = V2 (v2x ce / 5 + 1 / 2 + zo * (v2x uv - 1 / 2))
                   (v2y ce / 4 + 1 / 2 + zo * (v2y uv - 1 / 2))).
  { intros [cx cy] zo. destruct uv as [ux uy].
    unfold uvNow_of, start_z, leftBottom, zRange, fullExtent,
      add2, sub2, mul2, scale2; cbn [v2x v2y]. apply eq_vec2; field. }
  split; [apply H|]. rewrite H.
  rewrite Ropp_0, Rpower_O by lra.
  destruct uv as [ux uy]. unfold origin; cbn [v2x v2y]. apply eq_vec2; field.
Qed.

(** X9.  [zoom] counts powers of two: at [zoom = 0] the view spans the
    full extent [(5, 4)], each further step halves it, and for every
    zoom the middle pixel is [center] and the corner pixels are
    [center -/+ extent / 2]. *)
Theorem X9_zoom_steps (center : vec2) (zoom : R) :
  zRange (Rpower 2 (- 0)) = fullExtent /\
  zRange (Rpower 2 (- (zoom + 1))) = scale2 (1 / 2) (zRange (Rpower 2 (- zoom))) /\
  start_z center (Rpower 2 (- zoom)) mid_uv = center /\
  start_z center (Rpower 2 (- zoom)) (V2 0 0)
    = sub2 center (scale2 (1 / 2) (zRange (Rpower 2 (- zoom)))) /\
  start_z center (Rpower 2 (- zoom)) (V2 1 1)
    = add2 center (scale2 (1 / 2) (zRange (Rpower 2 (- zoom)))).
Proof.
  assert (Hh : Rpower 2 (- (zoom + 1)) = 1 / 2 * Rpower 2 (- zoom)).
  { replace (- (zoom + 1)) with (- zoom + - (1)) by ring.
    rewrite Rpower_plus, (Rpower_Ropp 2 1), Rpower_1 by lra. field. }
  split; [|split; [|split; [|split]]].
  - rewrite Ropp_0, Rpower_O by lra.
    unfold zRange, scale2, fullExtent; cbn [v2x v2y]. apply eq_vec2; ring.
  - rewrite Hh. unfold zRange, scale2, fullExtent; cbn [v2x v2y].
    apply eq_vec2; ring.
  - apply start_z_mid.
  - destruct center as [cx cy].
    unfold start_z, leftBottom, zRange, fullExtent, add2, sub2, mul2, scale2;
      cbn [v2x v2y]. apply eq_vec2; field.
  - destruct center as [cx cy].
    unfold start_z, leftBottom, zRange, fullExtent, add2, sub2, mul2, scale2;
      cbn [v2x v2y]. apply eq_vec2; field.
Qed.

(** The loop with an invariant that follows the index: either every
    iteration ran and kept [P], or iteration [j] broke, established [Q j],
    and was the last of [j - i + 1] iterations. *)
Lemma for_loop_indexed {S : Type} (body : Z -> S -> S * bool)
    (P Q : Z -> S -> Prop) :
  (forall i s, P i s -> snd (body i s) = false -> P (i + 1)%Z (fst (body i s))) ->
  (forall i s, P i s -> snd (body i s) = true -> Q i (fst (body i s))) ->
  forall n i s, P i s ->
    (P (i + Z.of_nat n)%Z (fst (for_loop body n i s)) /\
     snd (for_loop body n i s) = n) \/
    exists j, (i <= j < i + Z.of_nat n)%Z /\
              Q j (fst (for_loop body n i s)) /\
              snd (for_loop body n i s) = Z.to_nat (j - i + 1).
Proof.
  intros Hc Hb n; induction n as [|n IH]; intros i s HP.
  - left. simpl. rewrite Z.add_0_r. now split.
  - cbn [for_loop]. specialize (Hc i s HP). specialize (Hb i s HP).
    destruct (body i s) as [s' brk]; simpl in Hc, Hb. destruct brk.
    + right. exists i. split; [lia|]. split; [now apply Hb|].
      cbn [snd]. now replace (i - i + 1)%Z with 1%Z by lia.
    + destruct (IH (i + 1)%Z s' (Hc eq_refl)) as [[H Hk]|[j [Hj [HQ Hk]]]];
        destruct (for_loop body n (i + 1)%Z s') as [s'' k]; cbn [fst snd] in *.
      * left. split; [|now rewrite Hk].
        now replace (i + Z.of_nat (Datatypes.S n))%Z with (i + 1 + Z.of_nat n)%Z by lia.
      * right. exists j. split; [lia|]. split; [exact HQ|].
        rewrite Hk. lia.
Qed.

Lemma accumulate_channel_bound (a t w k : R) :
  0 <= a <= k -> k <= 1 -> 0 <= t <= 1 -> 0 <= w <= 1 ->
  0 <= a + 1 / 100 * GLSL.mix a t w <= k + 1 / 100.
Proof.
  intros Ha Hk Ht Hw. unfold GLSL.mix.
  assert (0 <= a * (1 - w) + t * w <= 1) by (split; nra). lra.
Qed.

Lemma accumulate_within (image : sampler2D) (color : vec4) (p z : vec2) (k : R) :
  unit_texture image -> k <= 1 -> rgb_within 0 k color ->
  rgb_within 0 (k + 1 / 100) (accumulate color (rgb_of (image p)) (mag2i_of z)).
Proof.
  intros Hu Hk [Hx [Hy Hz]]. destruct (Hu p) as [Tx [Ty Tz]].
  destruct (mag2i_falloff z) as [_ Hw].
  unfold rgb_within, accumulate, set_rgb, add3, scale3, rgb_of, GLSL.mix3;
    cbn [v4x v4y v4z v3x v3y v3z].
  split; [|split]; apply accumulate_channel_bound; try assumption; lra.
Qed.

Lemma rgb_within_black (k : R) : 0 <= k -> rgb_within 0 k black.
Proof. intros Hk. unfold rgb_within, black; cbn [v4x v4y v4z]. lra. Qed.

Lemma rgb_within_weaken (lo hi hi' : R) (c : vec4) :
  hi <= hi' -> rgb_within lo hi c -> rgb_within lo hi' c.
Proof. unfold rgb_within. intros H [Hx [Hy Hz]]. lra. Qed.

(** One more accumulation keeps the colour below a hundredth per
    iteration, as long as there were at most 100 of them. *)
Lemma accumulate_step_within (image : sampler2D) (color : vec4) (p z : vec2) (i : Z) :
  unit_texture image -> (0 <= i)%Z ->
  ((i <= 100)%Z -> rgb_within 0 (IZR i / 100) color) ->
  ((i + 1 <= 100)%Z ->
   rgb_within 0 (IZR (i + 1) / 100)
     (accumulate color (rgb_of (image p)) (mag2i_of z))).
Proof.
  intros Hu Hi Hc Hle. rewrite plus_IZR.
  replace ((IZR i + 1) / 100) with (IZR i / 100 + 1 / 100) by field.
  apply accumulate_within; [exact Hu| |apply Hc; lia].
  assert (IZR i <= 99) by (apply IZR_le; lia). lra.
Qed.

(** The loop of the image shader, with the number of iterations run and
    the size of the colour gathered. *)
Lemma imageFractal_loop_indexed (u : Uniforms) (image : sampler2D) (uv : vec2) :
  unit_texture image ->
  let r := imageFractal_loop u image uv in
  (is_iter (fst r) = 65%Z /\ snd r = 64%nat /\
   rgb_within 0 (64 / 100) (is_color (fst r))) \/
  exists j, (0 <= j < 64)%Z /\ is_iter (fst r) = j /\
            GLSL.dot (is_z (fst r)) (is_z (fst r)) > 10 /\
            snd r = Z.to_nat (j + 1) /\
            rgb_within 0 (IZR (j + 1) / 100) (is_color (fst r)).
Proof.
  intros Hu r. unfold r, imageFractal_loop. set (z := start_z _ _ _).
  destruct (for_loop_indexed (imageFractal_body u image)
              (fun i s => (0 <= i)%Z /\ is_iter s = 65%Z /\
                          ((i <= 100)%Z -> rgb_within 0 (IZR i / 100) (is_color s)))
              (fun j s => is_iter s = j /\ GLSL.dot (is_z s) (is_z s) > 10 /\
                          ((j + 1 <= 100)%Z ->
                           rgb_within 0 (IZR (j + 1) / 100) (is_color s))))
    with (n := 64%nat) (i := 0%Z) (s := mkImgState black z z 65)
    as [[[_ [Hi Hc]] Hk]|[j [Hj [[Hi [Hd Hc]] Hk]]]].
  - intros i s [Hr [Hi Hc]] Hb. unfold imageFractal_body in *.
    destruct (Rgt_dec _ 10); cbn [fst snd is_iter is_color] in *; [discriminate|].
    split; [lia|]. split; [exact Hi|].
    now apply accumulate_step_within.
  - intros i s [Hr [Hi Hc]] Hb. unfold imageFractal_body in *.
    destruct (Rgt_dec _ 10) as [Hg|Hg]; cbn [fst snd is_iter is_color is_z] in *;
      [|discriminate].
    split; [reflexivity|]. split; [exact Hg|].
    now apply accumulate_step_within.
  - split; [lia|]. split; [reflexivity|]. intros _. cbn [is_color].
    apply rgb_within_black. lra.
  - left. split; [exact Hi|]. split; [exact Hk|].
    apply Hc. lia.
  - right. exists j. split; [lia|]. split; [exact Hi|]. split; [exact Hd|].
    split; [rewrite Hk; f_equal; lia|]. apply Hc. lia.
Qed.

(** The same for the field shader, whose loop bound comes from
    [maxIterations]. *)
Lemma fieldFractal_loop_indexed (fieldExpr : option FieldExpr) (m : option Z)
    (u : FieldUniforms) (image : sampler2D) (uv : vec2) :
  unit_texture image -> (loop_bound m <= 100)%Z ->
  let r := fieldFractal_loop fieldExpr m u image uv in
  let n := Z.max 0 (loop_bound m) in
  (fs_iter (fst r) = iter_init m /\ snd r = Z.to_nat n /\
   rgb_within 0 (IZR n / 100) (fs_color (fst r))) \/
  exists j, (0 <= j < loop_bound m)%Z /\ fs_iter (fst r) = j /\
            GLSL.dot (fs_z (fst r)) (fs_z (fst r)) > 10 /\
            snd r = Z.to_nat (j + 1) /\
            rgb_within 0 (IZR (j + 1) / 100) (fs_color (fst r)).
Proof.
  intros Hu Hn r n. unfold r, fieldFractal_loop. set (z := start_z _ _ _).
  destruct (for_loop_indexed (fieldFractal_body fieldExpr u image uv z)
              (fun i s => (0 <= i)%Z /\ fs_iter s = iter_init m /\
                          ((i <= 100)%Z -> rgb_within 0 (IZR i / 100) (fs_color s)))
              (fun j s => fs_iter s = j /\ GLSL.dot (fs_z s) (fs_z s) > 10 /\
                          ((j + 1 <= 100)%Z ->
                           rgb_within 0 (IZR (j + 1) / 100) (fs_color s))))
    with (n := Z.to_nat (loop_bound m)) (i := 0%Z)
         (s := mkFieldState black z z (iter_init m))
    as [[[_ [Hi Hc]] Hk]|[j [Hj [[Hi [Hd Hc]] Hk]]]].
  - intros i s [Hr [Hi Hc]] Hb. unfold fieldFractal_body in *.
    destruct (Rgt_dec _ 10); cbn [fst snd fs_iter fs_color] in *; [discriminate|].
    split; [lia|]. split; [exact Hi|].
    now apply accumulate_step_within.
  - intros i s [Hr [Hi Hc]] Hb. unfold fieldFractal_body in *.
    destruct (Rgt_dec _ 10) as [Hg|Hg]; cbn [fst snd fs_iter fs_color fs_z] in *;
      [|discriminate].
    split; [reflexivity|]. split; [exact Hg|].
    now apply accumulate_step_within.
  - split; [lia|]. split; [reflexivity|]. intros _. cbn [fs_color].
    apply rgb_within_black. lra.
  - left. split; [exact Hi|]. split; [rewrite Hk; unfold n; lia|].
    replace n with (0 + Z.of_nat (Z.to_nat (loop_bound m)))%Z by (unfold n; lia).
    apply Hc. lia.
  - right. exists j. split; [lia|]. split; [exact Hi|]. split; [exact Hd|].
    split; [rewrite Hk; f_equal; lia|]. apply Hc. lia.
Qed.

(** X10.  With a texture in [[0, 1]] the loop of the image shader gathers
    at most a hundredth per iteration in each colour channel (so at most
    [0.64]), never a negative amount; it runs 64 iterations when the
    pixel does not escape, and [iter + 1] when it breaks at index
    [iter]. *)
Theorem X10_imageFractal_loop_gathers (u : Uniforms) (image : sampler2D) (uv : vec2) :
  unit_texture image ->
  let r := imageFractal_loop u image uv in
  (snd r <= 64)%nat /\
  rgb_within 0 (INR (snd r) / 100) (is_color (fst r)) /\
  (if (is_iter (fst r) =? 65)%Z then snd r = 64%nat
   else Z.of_nat (snd r) = (is_iter (fst r) + 1)%Z /\
        GLSL.dot (is_z (fst r)) (is_z (fst r)) > 10).
Proof.
  intros Hu r.
  destruct (imageFractal_loop_indexed u image uv Hu)
    as [[Hi [Hk Hc]]|[j [Hj [Hi [Hd [Hk Hc]]]]]]; fold r in Hi, Hk, Hc.
  - rewrite Hi, Hk. split; [lia|]. split; [|reflexivity].
    replace (INR 64) with 64 by (simpl; lra). exact Hc.
  - fold r in Hd. rewrite Hi, Hk. split; [lia|]. split.
    + rewrite INR_IZR_INZ, Z2Nat.id by lia. exact Hc.
    + destruct (Z.eqb_spec j 65); [lia|]. split; [lia|exact Hd].
Qed.

Lemma white_unit_texture : unit_texture white.
Proof. intros p. unfold white; cbn [v4x v4y v4z]. lra. Qed.

Lemma X10_imageFractal_loop_gathers_witness :
  (snd (imageFractal_loop (mkUniforms origin 1 origin 2) white mid_uv) <= 64)%nat.
Proof.
  apply (X10_imageFractal_loop_gathers (mkUniforms origin 1 origin 2) white mid_uv).
  exact white_unit_texture.
Defined.

Lemma exp_2_lt_10 : exp 2 < 10.
Proof.
  replace 2 with (1 + 1) by ring. rewrite exp_plus.
  pose proof exp_le_3 as H. pose proof (exp_pos 1) as Hp.
  set (e := exp 1) in *. nra.
Qed.

Lemma smooth_iter_escaped (z : vec2) (iter : Z) :
  10 < GLSL.dot z z ->
  fst (smooth_iter z iter) = IZR iter - ln (ln (GLSL.dot z z)) / ln 2 /\
  fst (smooth_iter z iter) < IZR iter - 1.
Proof.
  intros Hd. set (d := GLSL.dot z z) in *.
  assert (H2 : 0 < ln 2) by (pose proof ln_lt_2; lra).
  assert (Hl : 2 < ln d).
  { rewrite <- (ln_exp 2). apply ln_increasing; [apply exp_pos|].
    pose proof exp_2_lt_10. lra. }
  assert (Hll : ln 2 < ln (ln d)) by (apply ln_increasing; lra).
  assert (He : fst (smooth_iter z iter) = IZR iter - ln (ln d) / ln 2).
  { unfold smooth_iter. rewrite fst_bind. cbn [fst log_]. unfold GLSL.log.
    fold d. destruct (Rge_dec (ln d) 0) as [_|H]; [|exfalso; lra].
    rewrite !fst_bind. reflexivity. }
  split; [exact He|]. rewrite He.
  assert (1 < ln (ln d) / ln 2).
  { apply Rmult_lt_reg_r with (ln 2); [exact H2|].
    replace (ln (ln d) / ln 2 * ln 2) with (ln (ln d)) by (field; lra). lra. }
  lra.
Qed.

(** X11.  On an iterate with [|z|^2 > 10] the smooth-iteration formula
    takes its logarithmic branch, [iter - log(log |z|^2) / log 2], and
    the result is below [iter - 1]. *)
Theorem X11_smooth_iter_after_escape (z : vec2) (iter : Z) :
  10 < GLSL.dot z z ->
  fst (smooth_iter z iter) = IZR iter - ln (ln (GLSL.dot z z)) / ln 2 /\
  fst (smooth_iter z iter) < IZR iter - 1.
Proof. exact (smooth_iter_escaped z iter). Qed.

Lemma X11_smooth_iter_after_escape_witness :
  fst (smooth_iter (V2 6 0) 3) < IZR 3 - 1.
Proof.
  apply (X11_smooth_iter_after_escape (V2 6 0) 3).
  unfold GLSL.dot; cbn [v2x v2y]. lra.
Defined.

(** X12.  In the image shader a pixel that escapes at loop index 0 or 1
    has a negative [fiter], so [scale = 65 / fiter] is negative: with a
    texture in [[0, 1]] no colour channel of the output is positive;
    alpha stays 1. *)
Theorem X12_imageFractal_early_escape (u : Uniforms) (image : sampler2D) (uv : vec2) :
  unit_texture image ->
  (is_iter (fst (imageFractal_loop u image uv)) <= 1)%Z ->
  let out := fst (imageFractal_main u image uv) in
  v4x out <= 0 /\ v4y out <= 0 /\ v4z out <= 0 /\ v4w out = 1.
Proof.
  intros Hu Hi out. unfold out, imageFractal_main.
  pose proof (imageFractal_loop_alpha u image uv) as Ha.
  destruct (imageFractal_loop_indexed u image uv Hu)
    as [[Hi' _]|[j [Hj [Hij [Hd [_ Hc]]]]]]; [lia|].
  set (s := fst (imageFractal_loop u image uv)) in *.
  destruct (Z.eqb_spec (is_iter s) 65) as [He|_]; [lia|].
  rewrite fst_bind. cbn [ret fst].
  destruct (smooth_iter_escaped (is_z s) (is_iter s)) as [_ Hf]; [lra|].
  set (fiter := fst (smooth_iter (is_z s) (is_iter s))) in *.
  assert (Hneg : fiter < 0).
  { assert (IZR (is_iter s) <= 1) by (apply IZR_le; lia). lra. }
  assert (Hs : 65 / fiter < 0).
  { unfold Rdiv. assert (/ fiter < 0) by (apply Rinv_lt_0_compat; exact Hneg). nra. }
  destruct Hc as [Hx [Hy Hz]].
  unfold mul4; cbn [v4x v4y v4z v4w]. rewrite Ha.
  set (sc := 65 / fiter) in *.
  repeat split; nra.
Qed.

(** The image loop on the middle pixel of a view centred on the origin
    with [c = (6, 0)], [p = 2]: the first iterate [(6, 0)] has
    [|z|^2 = 36 > 10]. *)
Lemma imageFractal_loop_c6 (image : sampler2D) :
  imageFractal_loop (mkUniforms origin 1 (V2 6 0) 2) image mid_uv
  = (mkImgState (accumulate black (rgb_of (image (uvNow_of origin)))
                   (mag2i_of origin)) (V2 6 0) origin 0, 1%nat).
Proof.
  unfold imageFractal_loop; cbn [u_center u_zoom]. rewrite start_z_mid.
  assert (Hz : square_path (V2 6 0) origin = V2 6 0)
    by (unfold square_path, origin, add2, mul2, GLSL.dot; simpl;
        apply eq_vec2; ring).
  apply for_loop_break_first.
  unfold imageFractal_body; cbn [u_p u_c is_z is_color is_lastZ is_iter].
  rewrite power_map_2, Hz.
  destruct (Rgt_dec (GLSL.dot (V2 6 0) (V2 6 0)) 10) as [_|H]; [reflexivity|].
  exfalso. apply H. unfold GLSL.dot; cbn [v2x v2y]. lra.
Qed.

Lemma X12_imageFractal_early_escape_witness :
  v4x (fst (imageFractal_main (mkUniforms origin 1 (V2 6 0) 2) white mid_uv)) <= 0.
Proof.
  apply (X12_imageFractal_early_escape (mkUniforms origin 1 (V2 6 0) 2) white mid_uv).
  - exact white_unit_texture.
  - rewrite imageFractal_loop_c6. cbn [fst is_iter]. lia.
Defined.

Lemma scaled_channel_bound (a k sc b : R) :
  0 <= a <= k -> 0 <= sc -> k * sc <= b -> 0 <= a * sc <= b.
Proof. intros Ha Hs Hb. split; nra. Qed.

Lemma fieldFractal_main_alpha (fieldExpr : option FieldExpr) (m : option Z)
    (u : FieldUniforms) (image : sampler2D) (uv : vec2) :
  v4w (fst (fieldFractal_main fieldExpr m u image uv)) = 1.
Proof.
  unfold fieldFractal_main.
  destruct (fs_iter _ =? interior_test m)%Z; [reflexivity|].
  rewrite fst_bind. unfold ret, mul4; cbn [fst v4w].
  rewrite fieldFractal_loop_alpha. ring.
Qed.

(** X13.  With a texture in [[0, 1]] and a loop bound of at most 100 every
    colour channel of the field shader's output lies in [[0, 2]], and
    alpha is 1. *)
Theorem X13_fieldFractal_output_range (fieldExpr : option FieldExpr)
    (m : option Z) (u : FieldUniforms) (image : sampler2D) (uv : vec2) :
  unit_texture image -> (loop_bound m <= 100)%Z ->
  rgb_within 0 2 (fst (fieldFractal_main fieldExpr m u image uv)) /\
  v4w (fst (fieldFractal_main fieldExpr m u image uv)) = 1.
Proof.
  intros Hu Hn.
  split; [|apply fieldFractal_main_alpha].
  unfold fieldFractal_main.
  rewrite fieldFractal_interior_test_never_holds, fst_bind. cbn [ret fst].
  destruct (fieldFractal_loop_indexed fieldExpr m u image uv Hu Hn)
    as [[Hi [_ Hc]]|[j [Hj [Hi [_ [_ Hc]]]]]];
    set (s := fst (fieldFractal_loop fieldExpr m u image uv)) in *;
    rewrite Hi; destruct Hc as [Hx [Hy Hz]];
    unfold rgb_within, mul4; cbn [v4x v4y v4z].
  - (* never escaped *)
    unfold iter_init. fold (loop_bound m). set (N := loop_bound m) in *.
    destruct (Z.eqb_spec (N + 1) 0) as [He|He].
    + replace (Z.max 0 N) with 0%Z in * by lia.
      replace (IZR 0 / 100) with 0 in * by (simpl; field).
      repeat split; apply (scaled_channel_bound _ 0 100 2); lra.
    + destruct (Z_lt_le_dec N 0) as [Hneg|Hpos].
      * replace (Z.max 0 N) with 0%Z in * by lia.
        replace (IZR 0 / 100) with 0 in * by (simpl; field).
        assert (Ex : v4x (fs_color s) = 0) by lra.
        assert (Ey : v4y (fs_color s) = 0) by lra.
        assert (Ez : v4z (fs_color s) = 0) by lra.
        rewrite Ex, Ey, Ez, !Rmult_0_l. lra.
      * replace (Z.max 0 N) with N in * by lia.
        assert (HN : 0 <= IZR N) by (apply IZR_le; exact Hpos).
        rewrite plus_IZR.
        assert (Hsc : 0 <= 1 / (1 / 100 * (IZR N + 1))).
        { apply Rmult_le_pos; [lra|]. left. apply Rinv_0_lt_compat. lra. }
        assert (Hb : IZR N / 100 * (1 / (1 / 100 * (IZR N + 1))) <= 2).
        { replace (IZR N / 100 * (1 / (1 / 100 * (IZR N + 1))))
            with (IZR N / (IZR N + 1)) by (field; lra).
          apply Rmult_le_reg_r with (IZR N + 1); [lra|].
          replace (IZR N / (IZR N + 1) * (IZR N + 1)) with (IZR N) by (field; lra).
          lra. }
        repeat split; apply (scaled_channel_bound _ (IZR N / 100) _ 2); assumption.
  - (* escaped at index j *)
    destruct (Z.eqb_spec j 0) as [He|He].
    + rewrite He in Hx, Hy, Hz. change (IZR (0 + 1)) with 1 in Hx, Hy, Hz.
      repeat split; apply (scaled_channel_bound _ (1 / 100) 100 2); lra.
    + assert (Hj1 : 1 <= IZR j) by (apply (IZR_le 1); lia).
      rewrite plus_IZR in *.
      assert (Hsc : 0 <= 1 / (1 / 100 * IZR j)).
      { apply Rmult_le_pos; [lra|]. left. apply Rinv_0_lt_compat. lra. }
      assert (Hb : (IZR j + 1) / 100 * (1 / (1 / 100 * IZR j)) <= 2).
      { replace ((IZR j + 1) / 100 * (1 / (1 / 100 * IZR j)))
          with ((IZR j + 1) / IZR j) by (field; lra).
        apply Rmult_le_reg_r with (IZR j); [lra|].
        replace ((IZR j + 1) / IZR j * IZR j) with (IZR j + 1) by (field; lra).
        lra. }
      repeat split; apply (scaled_channel_bound _ ((IZR j + 1) / 100) _ 2); assumption.
Qed.

Lemma X13_fieldFractal_output_range_witness :
  v4w (fst (fieldFractal_main None None
              (mkFieldUniforms origin 1 origin 2 2 2) white mid_uv)) = 1.
Proof.
  apply (X13_fieldFractal_output_range None None
           (mkFieldUniforms origin 1 origin 2 2 2) white mid_uv).
  - exact white_unit_texture.
  - simpl. lia.
Defined.

(** X14.  Field shader without [fieldExpr]: a pixel whose first iterate
    already has [|z|^2 > 10] leaves the loop after one iteration with
    [iter = 0], and its colour is the texel under [z0] times the falloff
    weight of [z0]. *)
Theorem X14_fieldFractal_first_iteration_escape (m : option Z)
    (u : FieldUniforms) (image : sampler2D) (uv : vec2) :
  (1 <= loop_bound m)%Z ->
  let z0 := start_z (fu_center u) (fu_zoom u) uv in
  let z1 := power_map (fu_p0 u) (fu_c u) z0 in
  GLSL.dot z1 z1 > 10 ->
  let rgb := rgb_of (image (uvNow_of z0)) in
  let w := mag2i_of z0 in
  fieldFractal_loop None m u image uv
    = (mkFieldState (accumulate black rgb w) z1 z0 0, 1%nat) /\
  fst (fieldFractal_main None m u image uv)
    = V4 (w * v3x rgb) (w * v3y rgb) (w * v3z rgb) 1.
Proof.
  intros Hn z0 z1 Hd rgb w.
  assert (Hl : fieldFractal_loop None m u image uv
               = (mkFieldState (accumulate black rgb w) z1 z0 0, 1%nat)).
  { unfold fieldFractal_loop. fold z0.
    destruct (Z.to_nat (loop_bound m)) as [|n] eqn:En; [lia|].
    apply for_loop_break_first.
    unfold fieldFractal_body; cbn [fs_z fs_color fs_lastZ fs_iter].
    fold rgb w z1.
    destruct (Rgt_dec (GLSL.dot z1 z1) 10) as [_|H]; [reflexivity|now elim H]. }
  split; [exact Hl|].
  unfold fieldFractal_main. rewrite Hl. cbn [fst fs_iter fs_color fs_z].
  destruct (Z.eqb_spec 0 (interior_test m)) as [He|_];
    [unfold interior_test, loop_bound in *; lia|].
  rewrite fst_bind. cbn [ret fst Z.eqb].
  unfold accumulate, black, set_rgb, add3, scale3, rgb_of, GLSL.mix3, GLSL.mix, mul4;
    cbn [v4x v4y v4z v4w v3x v3y v3z].
  apply eq_vec4; field.
Qed.

Lemma X14_fieldFractal_first_iteration_escape_witness :
  fst (fieldFractal_main None None
         (mkFieldUniforms origin 1 (V2 6 0) 2 2 2) white mid_uv)
  = V4 (mag2i_of (start_z origin 1 mid_uv) * 1)
       (mag2i_of (start_z origin 1 mid_uv) * 1)
       (mag2i_of (start_z origin 1 mid_uv) * 1) 1.
Proof.
  apply (X14_fieldFractal_first_iteration_escape None
           (mkFieldUniforms origin 1 (V2 6 0) 2 2 2) white mid_uv).
  - simpl. lia.
  - cbn [fu_center fu_zoom fu_p0 fu_c].
    rewrite start_z_mid, power_map_2.
    unfold square_path, origin, add2, mul2, GLSL.dot; cbn [v2x v2y]. lra.
Defined.

(** X15.  With a negative [maxIterations] the loop body of the field
    shader never runs and every pixel is opaque black. *)
Theorem X15_negative_maxIterations (fieldExpr : option FieldExpr)
    (m : option Z) (u : FieldUniforms) (image : sampler2D) (uv : vec2) :
  (or_default m 64 < 0)%Z ->
  snd (fieldFractal_loop fieldExpr m u image uv) = 0%nat /\
  fst (fieldFractal_main fieldExpr m u image uv) = black.
Proof.
  intros Hn.
  assert (Hl : fieldFractal_loop fieldExpr m u image uv
               = (mkFieldState black (start_z (fu_center u) (fu_zoom u) uv)
                    (start_z (fu_center u) (fu_zoom u) uv) (iter_init m), 0%nat)).
  { unfold fieldFractal_loop, loop_bound.
    replace (Z.to_nat (or_default m 64)) with 0%nat by lia. reflexivity. }
  split; [now rewrite Hl|].
  unfold fieldFractal_main.
  rewrite fieldFractal_interior_test_never_holds, fst_bind, Hl.
  cbn [ret fst fs_color]. unfold mul4, black; cbn [v4x v4y v4z v4w].
  apply eq_vec4; ring.
Qed.

Lemma X15_negative_maxIterations_witness :
  fst (fieldFractal_main None (Some (-3)%Z)
         (mkFieldUniforms origin 1 origin 2 2 2) white mid_uv) = black.
Proof.
  apply (X15_negative_maxIterations None (Some (-3)%Z)
           (mkFieldUniforms origin 1 origin 2 2 2) white mid_uv).
  simpl. lia.
Defined.

Lemma dot_csquare (z : vec2) :
  GLSL.dot (csquare z) (csquare z) = GLSL.dot z z * GLSL.dot z z.
Proof. destruct z as [x y]. unfold csquare, GLSL.dot; cbn [v2x v2y]. ring. Qed.

Lemma sub2_add2 (c v : vec2) : sub2 (add2 c v) c = v.
Proof.
  destruct c as [cx cy], v as [x y]. unfold sub2, add2; cbn [v2x v2y].
  apply eq_vec2; ring.
Qed.

(** X16.  Both branches of the power map raise the modulus to the power
    [p], whatever angle [atan2] returns. *)
Theorem X16_power_map_modulus (p : R) (c z : vec2) :
  0 < GLSL.dot z z ->
  let d := sub2 (power_map p c z) c in
  GLSL.dot d d = Rpower (GLSL.dot z z) p.
Proof.
  intros Hz d. unfold d, power_map.
  destruct (Req_dec_T p 2) as [Hp|Hp].
  - subst p. rewrite square_path_csquare, sub2_add2, dot_csquare.
    replace 2 with (1 + 1) by ring.
    now rewrite Rpower_plus, Rpower_1.
  - unfold polar_path. rewrite sub2_add2.
    unfold GLSL.pow. destruct (Rlt_dec 0 (GLSL.dot z z)) as [_|H]; [|now elim H].
    set (th := p * atan2 (v2y z) (v2x z)).
    set (sc := Rpower (GLSL.dot z z) (5 / 10 * p)).
    unfold GLSL.dot at 1; cbn [v2x v2y].
    pose proof (sin2_cos2 th) as Ht. unfold Rsqr in Ht.
    replace (sc * cos th * (sc * cos th) + sc * sin th * (sc * sin th))
      with (sc * sc * (sin th * sin th + cos th * cos th)) by ring.
    rewrite Ht, Rmult_1_r. unfold sc. rewrite <- Rpower_plus.
    f_equal. field.
Qed.

Lemma X16_power_map_modulus_witness :
  GLSL.dot (sub2 (power_map 3 origin (V2 1 0)) origin)
           (sub2 (power_map 3 origin (V2 1 0)) origin)
  = Rpower (GLSL.dot (V2 1 0) (V2 1 0)) 3.
Proof.
  apply (X16_power_map_modulus 3 origin (V2 1 0)).
  unfold GLSL.dot; cbn [v2x v2y]. lra.
Defined.

Lemma square_path_0 (z : vec2) : square_path origin z = csquare z.
Proof.
  rewrite square_path_csquare. destruct z as [x y].
  unfold add2, csquare, origin; cbn [v2x v2y]. apply eq_vec2; ring.
Qed.

(** X17.  With [p = 2] and [c = (0,0)] every pixel whose point lies in
    the closed unit disc is interior: the pure-colour and the image
    shader paint it black. *)
Theorem X17_unit_disc_is_black (center : vec2) (zoom : R) (image : sampler2D)
    (uv : vec2) :
  GLSL.dot (start_z center zoom uv) (start_z center zoom uv) <= 1 ->
  let u := mkUniforms center zoom origin 2 in
  fst (juliaFractal_main u uv) = black /\
  fst (imageFractal_main u image uv) = black.
Proof.
  intros Hz u. split.
  - unfold juliaFractal_main.
    assert (H : st_iter (fst (juliaFractal_loop u uv)) = 65%Z).
    { unfold juliaFractal_loop; cbn [u_center u_zoom].
      set (z := start_z center zoom uv) in *.
      apply (for_loop_always (juliaFractal_body u)
               (fun s => st_iter s = 65%Z /\ GLSL.dot (st_z s) (st_z s) <= 1));
        [|split; [reflexivity|exact Hz]].
      intros i s [Hi Hd]. unfold juliaFractal_body, u; cbn [u_p u_c].
      rewrite power_map_2, square_path_0.
      assert (Hc : GLSL.dot (csquare (st_z s)) (csquare (st_z s)) <= 1).
      { rewrite dot_csquare. pose proof (dot_self_nonneg (st_z s)). nra. }
      destruct (Rgt_dec (GLSL.length (csquare (st_z s))) 4) as [Hg|_].
      - apply length_gt_4 in Hg. exfalso. lra.
      - cbn [fst st_iter st_z]. split; [exact Hi|exact Hc]. }
    now rewrite H.
  - unfold imageFractal_main.
    assert (H : is_iter (fst (imageFractal_loop u image uv)) = 65%Z).
    { unfold imageFractal_loop; cbn [u_center u_zoom].
      set (z := start_z center zoom uv) in *.
      apply (for_loop_always (imageFractal_body u image)
               (fun s => is_iter s = 65%Z /\ GLSL.dot (is_z s) (is_z s) <= 1));
        [|split; [reflexivity|exact Hz]].
      intros i s [Hi Hd]. unfold imageFractal_body, u; cbn [u_p u_c].
      rewrite power_map_2, square_path_0.
      assert (Hc : GLSL.dot (csquare (is_z s)) (csquare (is_z s)) <= 1).
      { rewrite dot_csquare. pose proof (dot_self_nonneg (is_z s)). nra. }
      destruct (Rgt_dec (GLSL.dot (csquare (is_z s)) (csquare (is_z s))) 10) as [Hg|_].
      - exfalso. lra.
      - cbn [fst is_iter is_z]. split; [exact Hi|exact Hc]. }
    now rewrite H.
Qed.

Lemma X17_unit_disc_is_black_witness :
  fst (juliaFractal_main (mkUniforms origin 1 origin 2) mid_uv) = black.
Proof.
  apply (X17_unit_disc_is_black origin 1 white mid_uv).
  rewrite start_z_mid, dot_origin. lra.
Defined.

Lemma for_loop_S {S : Type} (body : Z -> S -> S * bool) (n : nat) (i : Z) (s : S) :
  for_loop body (Datatypes.S n) i s =
  let (s', brk) := body i s in
  if brk then (s', 1%nat)
  else let (s'', k) := for_loop body n (i + 1)%Z s' in (s'', Datatypes.S k).
Proof. reflexivity. Qed.

(** X18.  With [p = 2] and [c = (0,0)] a pixel whose point is farther
    than 2 from the origin escapes in the first iteration of the
    pure-colour shader: the loop runs once and leaves [iter = 0] and
    [z = z0 * z0]. *)
Theorem X18_outside_radius_2_escapes_at_once (center : vec2) (zoom : R) (uv : vec2) :
  let z0 := start_z center zoom uv in
  GLSL.dot z0 z0 > 4 ->
  juliaFractal_loop (mkUniforms center zoom origin 2) uv
  = (mkState (csquare z0) z0 0, 1%nat).
Proof.
  intros z0 Hz. unfold juliaFractal_loop; cbn [u_center u_zoom]. fold z0.
  apply for_loop_break_first.
  unfold juliaFractal_body; cbn [u_p u_c st_z st_lastZ st_iter].
  rewrite power_map_2, square_path_0.
  destruct (Rgt_dec (GLSL.length (csquare z0)) 4) as [_|H]; [reflexivity|].
  exfalso. apply H. unfold GLSL.length. rewrite dot_csquare.
  rewrite sqrt_square by (pose proof (dot_self_nonneg z0); lra). lra.
Qed.

Lemma X18_outside_radius_2_escapes_at_once_witness :
  juliaFractal_loop (mkUniforms (V2 3 0) 1 origin 2) mid_uv
  = (mkState (csquare (start_z (V2 3 0) 1 mid_uv)) (start_z (V2 3 0) 1 mid_uv) 0,
     1%nat).
Proof.
  apply (X18_outside_radius_2_escapes_at_once (V2 3 0) 1 mid_uv).
  rewrite start_z_mid. unfold GLSL.dot; cbn [v2x v2y]. lra.
Defined.

Lemma juliaFractal_main_color (u : Uniforms) (uv : vec2) :
  juliaFractal_main u uv
  = juliaFractal_color (st_z (fst (juliaFractal_loop u uv)))
                       (st_iter (fst (juliaFractal_loop u uv))).
Proof. reflexivity. Qed.

Lemma csquare_neg2 (z : vec2) : csquare (neg2 z) = csquare z.
Proof.
  destruct z as [x y]. unfold csquare, neg2; cbn [v2x v2y]. apply eq_vec2; ring.
Qed.

Lemma juliaFractal_first_step_sym (zoom : R) (c z0 : vec2) :
  let body := juliaFractal_body (mkUniforms origin zoom c 2) in
  let r := for_loop body 64 0%Z (mkState z0 z0 65) in
  let r' := for_loop body 64 0%Z (mkState (neg2 z0) (neg2 z0) 65) in
  st_z (fst r) = st_z (fst r') /\ st_iter (fst r) = st_iter (fst r').
Proof.
  intros body r r'. unfold r, r'.
  set (z1 := add2 c (csquare z0)).
  assert (H1 : body 0%Z (mkState z0 z0 65)
               = if Rgt_dec (GLSL.length z1) 4
                 then (mkState z1 z0 0, true) else (mkState z1 z1 65, false)).
  { unfold body, juliaFractal_body; cbn [u_p u_c st_z st_lastZ st_iter].
    now rewrite power_map_2, square_path_csquare. }
  assert (H2 : body 0%Z (mkState (neg2 z0) (neg2 z0) 65)
               = if Rgt_dec (GLSL.length z1) 4
                 then (mkState z1 (neg2 z0) 0, true) else (mkState z1 z1 65, false)).
  { unfold body, juliaFractal_body; cbn [u_p u_c st_z st_lastZ st_iter].
    now rewrite power_map_2, square_path_csquare, csquare_neg2. }
  change 64%nat with (Datatypes.S 63). rewrite !for_loop_S, H1, H2.
  destruct (Rgt_dec (GLSL.length z1) 4); split; reflexivity.
Qed.

(** X19.  With [p = 2] and a view centred on the origin the picture of
    the pure-colour shader is symmetric about its middle: pixel
    [(1 - u, 1 - v)] gets the colour of pixel [(u, v)]. *)
Theorem X19_juliaFractal_point_symmetry (zoom : R) (c uv : vec2) :
  let u := mkUniforms origin zoom c 2 in
  juliaFractal_main u (V2 (1 - v2x uv) (1 - v2y uv)) = juliaFractal_main u uv.
Proof.
  intros u. rewrite !juliaFractal_main_color.
  assert (Hs : start_z origin zoom (V2 (1 - v2x uv) (1 - v2y uv))
               = neg2 (start_z origin zoom uv)).
  { destruct uv as [ux uy].
    unfold start_z, leftBottom, zRange, fullExtent, neg2, origin,
      add2, sub2, mul2, scale2; cbn [v2x v2y]. apply eq_vec2; field. }
  unfold juliaFractal_loop, u; cbn [u_center u_zoom]. rewrite Hs.
  destruct (juliaFractal_first_step_sym zoom c (start_z origin zoom uv)) as [Hz Hi].
  cbv zeta in Hz, Hi. now rewrite <- Hz, <- Hi.
Qed.

(** X20.  When [q = r] the [fieldExpr] has no effect: every iteration
    uses the exponent [q]. *)
Theorem X20_equal_bounds_ignore_fieldExpr (f : FieldExpr) (m : option Z)
    (center : vec2) (zoom : R) (c : vec2) (p q : R)
    (image : sampler2D) (uv : vec2) :
  fieldFractal_main (Some f) m (mkFieldUniforms center zoom c p q q) image uv
  = fieldFractal_main None m (mkFieldUniforms center zoom c q q q) image uv.
Proof.
  unfold fieldFractal_main, fieldFractal_loop. cbn [fu_center fu_zoom].
  rewrite (for_loop_ext
             (fieldFractal_body (Some f)
                (mkFieldUniforms center zoom c p q q) image uv
                (start_z center zoom uv))
             (fieldFractal_body None
                (mkFieldUniforms center zoom c q q q) image uv
                (start_z center zoom uv))); [reflexivity|].
  intros i s. unfold fieldFractal_body; cbn [fu_p0 fu_q fu_r fu_c fu_center fu_zoom].
  match goal with
  | |- context [q + (q - q) * ?t] => replace (q + (q - q) * t) with q by ring
  end.
  reflexivity.
Qed.

(** Two loops whose bodies keep a relation between their states and
    break together end in related states after the same number of
    iterations. *)
Lemma for_loop_sim {S T : Type} (b1 : Z -> S -> S * bool) (b2 : Z -> T -> T * bool)
    (R : S -> T -> Prop) :
  (forall i s t, R s t ->
     R (fst (b1 i s)) (fst (b2 i t)) /\ snd (b1 i s) = snd (b2 i t)) ->
  forall n i s t, R s t ->
    R (fst (for_loop b1 n i s)) (fst (for_loop b2 n i t)) /\
    snd (for_loop b1 n i s) = snd (for_loop b2 n i t).
Proof.
  intros Hb n; induction n as [|n IH]; intros i s t HR; [now split|].
  cbn [for_loop]. destruct (Hb i s t HR) as [H1 H2].
  destruct (b1 i s) as [s' k1], (b2 i t) as [t' k2]; cbn [fst snd] in *.
  subst k2. destruct k1; [now split|].
  destruct (IH (i + 1)%Z s' t' H1) as [H3 H4].
  destruct (for_loop b1 n (i + 1)%Z s') as [s'' a],
           (for_loop b2 n (i + 1)%Z t') as [t'' b]; cbn [fst snd] in *.
  split; [exact H3|now rewrite H4].
Qed.

(** X21.  Without [fieldExpr] and with the default [maxIterations] the
    field shader's loop follows the image shader's: same colour
    gathered, same last iterate, same [iter], same number of
    iterations. *)
Theorem X21_field_loop_follows_image_loop (center : vec2) (zoom : R) (c : vec2)
    (p q r : R) (image : sampler2D) (uv : vec2) :
  let ri := imageFractal_loop (mkUniforms center zoom c p) image uv in
  let rf := fieldFractal_loop None None (mkFieldUniforms center zoom c p q r)
              image uv in
  fs_color (fst rf) = is_color (fst ri) /\
  fs_z (fst rf) = is_z (fst ri) /\
  fs_iter (fst rf) = is_iter (fst ri) /\
  snd rf = snd ri.
Proof.
  intros ri rf. unfold ri, rf, imageFractal_loop, fieldFractal_loop.
  cbn [u_center u_zoom fu_center fu_zoom]. set (z := start_z center zoom uv).
  change (Z.to_nat (loop_bound None)) with 64%nat.
  change (iter_init None) with 65%Z.
  destruct (for_loop_sim
              (fieldFractal_body None (mkFieldUniforms center zoom c p q r) image uv z)
              (imageFractal_body (mkUniforms center zoom c p) image)
              (fun s t => fs_color s = is_color t /\ fs_z s = is_z t /\
                          fs_iter s = is_iter t))
    with (n := 64%nat) (i := 0%Z)
         (s := mkFieldState black z z 65) (t := mkImgState black z z 65)
    as [[Hc [Hz Hi]] Hk].
  - intros i s t [Hc [Hz Hi]].
    unfold fieldFractal_body, imageFractal_body; cbn [fu_p0 fu_c u_p u_c].
    rewrite Hc, Hz, Hi.
    destruct (Rgt_dec _ 10); cbn [fst snd fs_color fs_z fs_iter is_color is_z is_iter];
      repeat split; reflexivity.
  - repeat split; reflexivity.
  - repeat split; assumption.
Qed.

(** The pure-colour loop stays unescaped as long as the image loop does:
    both follow the same orbit and [|z|^2 <= 10] implies [|z| <= 4]. *)
Lemma unescaped_image_unescaped_pure (u : Uniforms) (image : sampler2D) (n : nat) :
  forall (i : Z) (s : State) (t : ImgState),
    (i + Z.of_nat n <= 64)%Z ->
    st_z s = is_z t -> st_iter s = 65%Z ->
    is_iter (fst (for_loop (imageFractal_body u image) n i t)) = 65%Z ->
    st_iter (fst (for_loop (juliaFractal_body u) n i s)) = 65%Z.
Proof.
  induction n as [|n IH]; intros i s t Hn Hz Hs Ht; [exact Hs|].
  set (z := power_map (u_p u) (u_c u) (is_z t)).
  set (col := accumulate (is_color t) (rgb_of (image (uvNow_of (is_z t))))
                (mag2i_of (is_z t))).
  assert (Hbi : imageFractal_body u image i t
                = if Rgt_dec (GLSL.dot z z) 10
                  then (mkImgState col z (is_lastZ t) i, true)
                  else (mkImgState col z z (is_iter t), false)) by reflexivity.
  assert (Hbj : juliaFractal_body u i s
                = if Rgt_dec (GLSL.length z) 4
                  then (mkState z (st_lastZ s) i, true)
                  else (mkState z z (st_iter s), false))
    by (unfold juliaFractal_body; rewrite Hz; reflexivity).
  rewrite for_loop_S, Hbi in Ht. rewrite for_loop_S, Hbj.
  destruct (Rgt_dec (GLSL.dot z z) 10) as [Hg|Hg].
  - cbn [fst is_iter] in Ht. lia.
  - destruct (Rgt_dec (GLSL.length z) 4) as [Hl|Hl].
    + apply length_gt_4 in Hl. exfalso. lra.
    + specialize (IH (i + 1)%Z (mkState z z (st_iter s))
                    (mkImgState col z z (is_iter t))).
      destruct (for_loop (imageFractal_body u image) n (i + 1)%Z
                  (mkImgState col z z (is_iter t))) as [t'' a].
      destruct (for_loop (juliaFractal_body u) n (i + 1)%Z
                  (mkState z z (st_iter s))) as [s'' b].
      cbn [fst] in *. apply IH; [lia|reflexivity|exact Hs|exact Ht].
Qed.

(** X22.  A pixel the image shader paints black (no escape past
    [|z|^2 > 10]) is painted black by the pure-colour shader (no escape
    past [|z| > 4]) under the same uniforms. *)
Theorem X22_image_interior_is_pure_interior (u : Uniforms) (image : sampler2D)
    (uv : vec2) :
  is_iter (fst (imageFractal_loop u image uv)) = 65%Z ->
  st_iter (fst (juliaFractal_loop u uv)) = 65%Z /\
  fst (juliaFractal_main u uv) = black /\
  fst (imageFractal_main u image uv) = black.
Proof.
  intros Hi.
  assert (Hs : st_iter (fst (juliaFractal_loop u uv)) = 65%Z).
  { unfold juliaFractal_loop, imageFractal_loop in *.
    set (z := start_z (u_center u) (u_zoom u) uv) in *.
    apply (unescaped_image_unescaped_pure u image 64 0%Z
             (mkState z z 65) (mkImgState black z z 65));
      [simpl; lia|reflexivity|reflexivity|exact Hi]. }
  split; [exact Hs|].
  unfold juliaFractal_main, imageFractal_main. now rewrite Hs, Hi.
Qed.

Lemma X22_image_interior_is_pure_interior_witness :
  fst (juliaFractal_main (mkUniforms origin 1 origin 2) mid_uv) = black.
Proof.
  apply (X22_image_interior_is_pure_interior (mkUniforms origin 1 origin 2) white mid_uv).
  unfold imageFractal_loop; cbn [u_center u_zoom].
  rewrite start_z_mid, <- (origin_color_0 white), imageFractal_origin_run.
  reflexivity.
Defined.
